(** * email-mcp-server: the request/response translation layer of [src/index.ts]

    A shallow embedding of the single source file: the startup configuration
    resolver ([parseEnv]), the address mapper ([mapAddress]), the zod schemas
    of the tools, and the five handlers (three tools, two resources) written
    against the mailbox and delivery collaborators. *)

From Stdlib Require Import ZArith List String Ascii Bool Lia Permutation Sorted.
Import ListNotations.
Open Scope string_scope.
Open Scope list_scope.
Open Scope Z_scope.

(** ** JavaScript values *)

(** A JS number: an integer-valued finite double, [Infinity], or any other
    number (a fraction, [NaN], [-Infinity]). *)
Inductive JsNumber : Type :=
| NumInt (z : Z)
| NumInfinity
| NumOther.

#[warnings="-register-all"]
Inductive JsValue : Type :=
| JUndefined
| JNull
| JBool (b : bool)
| JNum (n : JsNumber)
| JBigInt (z : Z)
| JStr (s : string)
| JDate (t : Z)
| JArr (items : list JsValue)
| JObj (fields : list (string * JsValue)).

(** [Error] objects: [name] and [message]. *)
Record Error : Type := mkError { err_name : string; err_message : string }.

(** Property read [o[k]]: [undefined] when the key is absent or [o] is not
    an object. *)
Fixpoint assoc (k : string) (fs : list (string * JsValue)) : option JsValue :=
  match fs with
  | [] => None
  | (k', v) :: rest => if String.eqb k k' then Some v else assoc k rest
  end.

Definition get (k : string) (o : JsValue) : JsValue :=
  match o with
  | JObj fs => match assoc k fs with Some v => v | None => JUndefined end
  | _ => JUndefined
  end.

Definition has_key (k : string) (o : JsValue) : bool :=
  match o with
  | JObj fs => match assoc k fs with Some _ => true | None => false end
  | _ => false
  end.

(** ** Strings, digits and [Number] *)

Definition is_digit (c : ascii) : bool :=
  let n := nat_of_ascii c in (48 <=? n)%nat && (n <=? 57)%nat.

Definition is_alpha (c : ascii) : bool :=
  let n := nat_of_ascii c in
  ((65 <=? n)%nat && (n <=? 90)%nat) || ((97 <=? n)%nat && (n <=? 122)%nat).

Definition is_alnum (c : ascii) : bool := is_alpha c || is_digit c.

Fixpoint all_chars (p : ascii -> bool) (s : string) : bool :=
  match s with
  | EmptyString => true
  | String c rest => p c && all_chars p rest
  end.

(** The regular expression [/^\d+$/]: one or more ASCII digits and nothing
    else. *)
Definition matches_digits (s : string) : bool :=
  match s with
  | EmptyString => false
  | _ => all_chars is_digit s
  end.

Definition digit_value (c : ascii) : Z := Z.of_nat (nat_of_ascii c) - 48.

Fixpoint decimal_value_acc (acc : Z) (s : string) : Z :=
  match s with
  | EmptyString => acc
  | String c rest => decimal_value_acc (10 * acc + digit_value c) rest
  end.

(** The mathematical value of a decimal numeral. *)
Definition decimal_value (s : string) : Z := decimal_value_acc 0 s.

(** The Number value of a non-negative integer: exact below [2^53], rounded
    to the nearest double (ties to even) above, [Infinity] once the rounded
    value reaches [2^1024]. *)
Definition number_of_Z (v : Z) : JsNumber :=
  if v <? 2 ^ 53 then NumInt v
  else
    let e := Z.log2 v - 52 in
    let q := v / 2 ^ e in
    let r := v mod 2 ^ e in
    let half := 2 ^ (e - 1) in
    let q' := if r <? half then q
              else if half <? r then q + 1
              else if Z.even q then q else q + 1 in
    let w := q' * 2 ^ e in
    if 2 ^ 1024 <=? w then NumInfinity else NumInt w.

(** [Number(s)] on a string of decimal digits. *)
Definition Number (s : string) : JsNumber := number_of_Z (decimal_value s).

(** ** The zod combinators the file uses

    A schema takes the input value and gives the parsed output, or [None]
    when validation raises an issue. *)
Definition schema : Type := JsValue -> option JsValue.

Definition z_string : schema :=
  fun v => match v with JStr _ => Some v | _ => None end.

Definition z_boolean : schema :=
  fun v => match v with JBool _ => Some v | _ => None end.

Definition z_bigint : schema :=
  fun v => match v with JBigInt _ => Some v | _ => None end.

Definition z_date : schema :=
  fun v => match v with JDate _ => Some v | _ => None end.

(** [z.string().min(1)] *)
Definition z_string_min1 : schema :=
  fun v => match v with
           | JStr s => if (1 <=? String.length s)%nat then Some v else None
           | _ => None
           end.

(** [z.number().int().positive()] *)
Definition z_number_int_positive : schema :=
  fun v => match v with
           | JNum (NumInt z) => if 0 <? z then Some v else None
           | _ => None
           end.

(** [z.string().regex(/^\d+$/).transform(Number)] *)
Definition z_port : schema :=
  fun v => match v with
           | JStr s => if matches_digits s then Some (JNum (Number s)) else None
           | _ => None
           end.

Definition z_optional (p : schema) : schema :=
  fun v => match v with JUndefined => Some JUndefined | _ => p v end.

(** [p.default(d)]: an absent input is replaced by [d], then parsed. *)
Definition z_default (d : JsValue) (p : schema) : schema :=
  fun v => match v with JUndefined => p d | _ => p v end.

Definition z_union (p q : schema) : schema :=
  fun v => match p v with Some r => Some r | None => q v end.

Fixpoint parse_items (p : schema) (l : list JsValue) : option (list JsValue) :=
  match l with
  | [] => Some []
  | x :: rest =>
      match p x, parse_items p rest with
      | Some y, Some ys => Some (y :: ys)
      | _, _ => None
      end
  end.

Definition z_array (p : schema) : schema :=
  fun v => match v with
           | JArr l => option_map JArr (parse_items p l)
           | _ => None
           end.

Fixpoint parse_entries (p : schema) (fs : list (string * JsValue))
  : option (list (string * JsValue)) :=
  match fs with
  | [] => Some []
  | (k, x) :: rest =>
      match p x, parse_entries p rest with
      | Some y, Some ys => Some ((k, y) :: ys)
      | _, _ => None
      end
  end.

(** [z.record(z.string(), p)] *)
Definition z_record (p : schema) : schema :=
  fun v => match v with
           | JObj fs => option_map JObj (parse_entries p fs)
           | _ => None
           end.

(** [z.object(shape)]: every key of the shape is parsed against the input's
    property (or [undefined]); keys outside the shape are stripped; a key is
    written to the output when the input has it or its parsed value is not
    [undefined]. *)
Definition shape : Type := list (string * schema).

Fixpoint parse_shape (sh : shape) (input : JsValue)
  : option (list (string * JsValue)) :=
  match sh with
  | [] => Some []
  | (k, p) :: rest =>
      match p (get k input), parse_shape rest input with
      | Some y, Some ys =>
          match y with
          | JUndefined => if has_key k input then Some ((k, y) :: ys) else Some ys
          | _ => Some ((k, y) :: ys)
          end
      | _, _ => None
      end
  end.

Definition z_object (sh : shape) : schema :=
  fun v => match v with
           | JObj _ => option_map JObj (parse_shape sh v)
           | _ => None
           end.

(** ** [z.string().email()]

    zod's e-mail pattern, case-insensitive: the text does not start with a
    dot and holds no two dots in a row; the local part is made of letters,
    digits and the characters _ ' + - . and ends in a letter, a digit or one
    of _ + -; the domain is one or more labels (a letter or digit, then
    letters, digits or dashes), each followed by a dot, and a final name of
    two or more letters.
    The local part and the domain are the text before and after the only
    [@]; the domain is cut at its dots into labels and a final top-level
    name. *)
Definition ch (n : nat) : ascii := ascii_of_nat n.
Definition c_dot : ascii := ch 46.
Definition c_at : ascii := ch 64.
Definition c_dash : ascii := ch 45.
Definition c_plus : ascii := ch 43.
Definition c_under : ascii := ch 95.
Definition c_quote : ascii := ch 39.

Definition local_last_char (c : ascii) : bool :=
  is_alnum c || Ascii.eqb c c_under || Ascii.eqb c c_plus || Ascii.eqb c c_dash.

Definition local_char (c : ascii) : bool :=
  local_last_char c || Ascii.eqb c c_quote || Ascii.eqb c c_dot.

Definition label_char (c : ascii) : bool := is_alnum c || Ascii.eqb c c_dash.

(** [split_at c s]: the text before the first [c] and the text after it. *)
Fixpoint split_at (c : ascii) (s : string) : option (string * string) :=
  match s with
  | EmptyString => None
  | String x rest =>
      if Ascii.eqb x c then Some (EmptyString, rest)
      else match split_at c rest with
           | Some (a, b) => Some (String x a, b)
           | None => None
           end
  end.

Fixpoint last_char (s : string) : option ascii :=
  match s with
  | EmptyString => None
  | String c EmptyString => Some c
  | String _ rest => last_char rest
  end.

Fixpoint has_double_dot (s : string) : bool :=
  match s with
  | String a ((String b _) as rest) =>
      (Ascii.eqb a c_dot && Ascii.eqb b c_dot) || has_double_dot rest
  | _ => false
  end.

Definition is_label (s : string) : bool :=
  match s with
  | EmptyString => false
  | String c rest => is_alnum c && all_chars label_char rest
  end.

Definition is_tld (s : string) : bool :=
  all_chars is_alpha s && (2 <=? String.length s)%nat.

(** [([A-Z0-9][A-Z0-9\-]*\.)+[A-Z]{2,}$]: [seen] tells whether a label has
    been read already; [fuel] bounds the number of labels by the length. *)
Fixpoint is_domain (fuel : nat) (seen : bool) (s : string) : bool :=
  match fuel with
  | O => false
  | S fuel' =>
      match split_at c_dot s with
      | Some (lbl, rest) => is_label lbl && is_domain fuel' true rest
      | None => seen && is_tld s
      end
  end.

Definition is_local (s : string) : bool :=
  match s with
  | EmptyString => false
  | String c _ =>
      negb (Ascii.eqb c c_dot) && all_chars local_char s &&
      match last_char s with Some l => local_last_char l | None => false end
  end.

Definition is_email (s : string) : bool :=
  negb (has_double_dot s) &&
  match split_at c_at s with
  | Some (loc, dom) => is_local loc && is_domain (S (String.length dom)) false dom
  | None => false
  end.

Definition z_string_email : schema :=
  fun v => match v with
           | JStr s => if is_email s then Some v else None
           | _ => None
           end.

(** ** Configuration resolver *)

Definition InvalidEnvError (message : string) : Error :=
  mkError "InvalidEnvError" message.

Definition envSchema : schema :=
  z_object
    [ ("EMAIL_USER", z_string_email);
      ("EMAIL_PASSWORD", z_string_min1);
      ("IMAP_HOST", z_string_min1);
      ("IMAP_PORT", z_port);
      ("SMTP_HOST", z_string_min1);
      ("SMTP_PORT", z_port) ].

(** [process.env] after [dotenv.config()]: an object whose properties are
    all strings. *)
Definition process_env (vars : list (string * string)) : JsValue :=
  JObj (map (fun kv => (fst kv, JStr (snd kv))) vars).

(** [parseEnv]: the parsed data, or the thrown [InvalidEnvError]. *)
Definition parseEnv (vars : list (string * string)) : Error + JsValue :=
  match envSchema (process_env vars) with
  | None => inl (InvalidEnvError "Environment validation failed:")
  | Some data => inr data
  end.

(** The module body: [const env = parseEnv()] runs before any tool or
    resource is registered and before [runServer()]; an exception there
    ends the process. *)
Inductive Process : Type :=
| Crashed (e : Error)
| Serving (env : JsValue).

Definition startup (vars : list (string * string)) : Process :=
  match parseEnv vars with
  | inl e => Crashed e
  | inr env => Serving env
  end.

Definition sample_env : list (string * string) :=
  [ ("EMAIL_USER", "me@example.com"); ("EMAIL_PASSWORD", "secret");
    ("IMAP_HOST", "imap.example.com"); ("IMAP_PORT", "993");
    ("SMTP_HOST", "smtp.example.com"); ("SMTP_PORT", "465") ].

(** ** Entities *)

(** imapflow's [MessageAddressObject]: both fields may be absent. *)
Record MessageAddressObject : Type := mkAddr {
  addr_name : option string;
  addr_address : option string
}.

Record EmailAddress : Type := mkEmailAddress {
  ea_name : option string;
  ea_address : string
}.

Record EmailMessage : Type := mkEmailMessage {
  em_id : Z;
  em_subject : string;
  em_from : list EmailAddress;
  em_to : list EmailAddress;
  em_date : Z;
  em_text : option string;
  em_html : option string
}.

Record EmailFolder : Type := mkEmailFolder {
  ef_name : string;
  ef_path : string;
  ef_specialUse : option string;
  ef_flags : list string
}.

(** [a || d] on a possibly absent string: the empty string is falsy. *)
Definition or_else (a : option string) (d : string) : string :=
  match a with
  | Some EmptyString => d
  | Some s => s
  | None => d
  end.

Definition mapAddress (addr : MessageAddressObject) : EmailAddress :=
  {| ea_name := addr_name addr;
     ea_address := or_else (addr_address addr) "" |}.

(** *** The values handed to [JSON.stringify] *)

Definition opt_str (o : option string) : JsValue :=
  match o with Some s => JStr s | None => JUndefined end.

Definition json_of_address (a : EmailAddress) : JsValue :=
  JObj [ ("name", opt_str (ea_name a)); ("address", JStr (ea_address a)) ].

(** The object literal of the handlers has the five envelope keys only;
    [text] and [html] would be further keys. *)
Definition opt_key (k : string) (o : option string) : list (string * JsValue) :=
  match o with Some s => [ (k, JStr s) ] | None => [] end.

Definition json_of_message (m : EmailMessage) : JsValue :=
  JObj ([ ("id", JNum (NumInt (em_id m)));
          ("subject", JStr (em_subject m));
          ("from", JArr (map json_of_address (em_from m)));
          ("to", JArr (map json_of_address (em_to m)));
          ("date", JDate (em_date m)) ]
        ++ opt_key "text" (em_text m) ++ opt_key "html" (em_html m)).

Definition json_of_folder (f : EmailFolder) : JsValue :=
  JObj [ ("name", JStr (ef_name f));
         ("path", JStr (ef_path f));
         ("specialUse", opt_str (ef_specialUse f));
         ("flags", JArr (map JStr (ef_flags f))) ].

(** A text of a result: a string built in the handler, or the output of
    [JSON.stringify(v, null, 2)], kept as the value [v] it serialises. *)
Inductive Text : Type :=
| Str (s : string)
| JSON_stringify (v : JsValue).

(** ** Array helpers *)

(** [l.slice(0, e)]: a negative end counts from the length, the end is
    clamped to the array. *)
Definition slice0 {A : Type} (l : list A) (e : Z) : list A :=
  let len := Z.of_nat (List.length l) in
  let k := if e <? 0 then Z.max (len + e) 0 else Z.min e len in
  firstn (Z.to_nat k) l.

(** [l.sort(cmp)]: the sort is stable; [cmp a b > 0] puts [a] after [b]. *)
Fixpoint sort_insert {A : Type} (cmp : A -> A -> Z) (x : A) (l : list A) : list A :=
  match l with
  | [] => [x]
  | y :: rest => if 0 <? cmp x y then y :: sort_insert cmp x rest else x :: l
  end.

Definition sort {A : Type} (cmp : A -> A -> Z) (l : list A) : list A :=
  fold_right (sort_insert cmp) [] l.

(** ** Effects: a trace of collaborator calls and an outcome *)

Inductive event : Type :=
| EvConnect
| EvMailboxOpen (folder : string)
| EvSearch
| EvFetch
| EvList
| EvLogout
| EvSendMail
| EvConsoleError (label : string).

(** A computation: the calls it made, in order, and the value it returned
    or the error it threw. *)
Definition M (A : Type) : Type := (list event * (Error + A))%type.

Definition ret {A : Type} (a : A) : M A := ([], inr a).

Definition throw {A : Type} (e : Error) : M A := ([], inl e).

Definition bind {A B : Type} (m : M A) (k : A -> M B) : M B :=
  match m with
  | (t, inl e) => (t, inl e)
  | (t, inr a) => let (t', r) := k a in (t ++ t', r)
  end.

(** [await c.method(..)]: one event, then the call's outcome. *)
Definition call {A : Type} (ev : event) (r : Error + A) : M A := ([ev], r).

(** [try { m } catch (error) { h error }] *)
Definition try_catch {A : Type} (m : M A) (h : Error -> M A) : M A :=
  match m with
  | (t, inl e) => let (t', r) := h e in (t ++ t', r)
  | (t, inr a) => (t, inr a)
  end.

(** [try { m } finally { f }]: [f] runs on both exits; an error thrown by
    [f] replaces the completion of [m]. *)
Definition try_finally {A B : Type} (m : M A) (f : M B) : M A :=
  let (t, r) := m in
  match f with
  | (t', inl e') => (t ++ t', inl e')
  | (t', inr _) => (t ++ t', r)
  end.

Declare Scope m_scope.
Delimit Scope m_scope with M.
Notation "x <- m ;; k" := (bind m (fun x => k))
  (at level 61, m at next level, right associativity) : m_scope.
Notation "m ;;; k" := (bind m (fun _ => k))
  (at level 61, right associativity) : m_scope.

Definition trace {A : Type} (m : M A) : list event := fst m.
Definition outcome {A : Type} (m : M A) : Error + A := snd m.

Definition is_logout (ev : event) : bool :=
  match ev with EvLogout => true | _ => false end.

(** How many times [client.logout()] was called. *)
Definition releases (t : list event) : nat :=
  List.length (filter is_logout t).

Definition console_error (label : string) : M unit :=
  ([EvConsoleError label], inr tt).

(** ** Request schemas *)

Definition searchQueryBase : shape :=
  [ ("seq", z_optional z_string);
    ("answered", z_optional z_boolean);
    ("deleted", z_optional z_boolean);
    ("draft", z_optional z_boolean);
    ("flagged", z_optional z_boolean);
    ("seen", z_optional z_boolean);
    ("all", z_optional z_boolean);
    ("new", z_optional z_boolean);
    ("old", z_optional z_boolean);
    ("recent", z_optional z_boolean);
    ("from", z_optional z_string);
    ("to", z_optional z_string);
    ("cc", z_optional z_string);
    ("bcc", z_optional z_string);
    ("body", z_optional z_string);
    ("subject", z_string_min1);
    ("larger", z_optional z_number_int_positive);
    ("smaller", z_optional z_number_int_positive);
    ("uid", z_optional z_string);
    ("modseq", z_optional z_bigint);
    ("emailId", z_optional z_string);
    ("threadId", z_optional z_string);
    ("before", z_optional z_date);
    ("on", z_optional z_date);
    ("since", z_optional z_date);
    ("sentBefore", z_optional z_date);
    ("sentOn", z_optional z_date);
    ("sentSince", z_optional z_date);
    ("keyword", z_optional z_string);
    ("unKeyword", z_optional z_string);
    ("header", z_optional (z_record (z_union z_boolean z_string))) ].

(** [searchQuerySchema.extend({ or: z.array(searchQuerySchema).optional() })]:
    the elements of [or] are parsed by the schema as it was before the
    extension. *)
Definition searchQueryShape : shape :=
  searchQueryBase ++ [ ("or", z_optional (z_array (z_object searchQueryBase))) ].

Definition searchQuerySchema : schema := z_object searchQueryShape.

Definition fetchOptionsShape : shape :=
  [ ("uid", z_optional z_boolean);
    ("flags", z_optional z_boolean);
    ("bodyStructure", z_optional z_boolean);
    ("envelope", z_optional z_boolean);
    ("internalDate", z_optional z_boolean);
    ("size", z_optional z_boolean);
    ("source", z_optional (z_union z_boolean (z_object [])));
    ("threadId", z_optional z_boolean);
    ("labels", z_optional z_boolean);
    ("headers", z_optional (z_union z_boolean (z_array z_string)));
    ("bodyParts", z_optional (z_array z_string)) ].

Definition fetchOptionsSchema : schema := z_object fetchOptionsShape.

(** ** Collaborators *)

(** The envelope of a fetched message. [from] and [to] are there only when
    the message has the header. [subject] and [date] are taken as present,
    [date] as a valid point in time, in milliseconds. *)
Record MessageEnvelopeObject : Type := mkEnvelope {
  env_subject : string;
  env_from : option (list MessageAddressObject);
  env_to : option (list MessageAddressObject);
  env_date : Z
}.

(** What [client.fetch] yields: the sequence number and the unique-id are
    always there; [envelope], [source] and [bodyParts] when the fetch options
    ask for them. *)
Record FetchMessageObject : Type := mkFetched {
  fm_seq : Z;
  fm_uid : Z;
  fm_envelope : option MessageEnvelopeObject;
  fm_source : option string;
  fm_bodyParts : list (string * string)
}.

Record ListResponse : Type := mkListResponse {
  lr_name : string;
  lr_path : string;
  lr_specialUse : option string;
  lr_flags : list string
}.

(** The range argument of [client.fetch]: an array of numbers, or the
    sequence set ['1:*']. *)
Inductive Range : Type :=
| Ids (l : list Z)
| AllMessages.

(** One fresh [ImapFlow] client, as the outcomes of its calls. The boolean
    of [search] and [fetch] is the [uid] option of imapflow: with [true] the
    numbers are unique-ids, with [false] (the default when the option is
    left out) they are sequence numbers. [fetch] yields messages and may
    then throw. *)
Record ImapFlow : Type := mkImapFlow {
  connect : Error + unit;
  mailboxOpen : string -> Error + unit;
  search : JsValue -> bool -> Error + list Z;
  fetch : Range -> JsValue -> bool -> list FetchMessageObject * option Error;
  list_ : Error + list ListResponse;
  logout : Error + unit
}.

Record MailOptions : Type := mkMailOptions {
  mo_from : string;
  mo_to : string;
  mo_subject : string;
  mo_text : string;
  mo_html : option string
}.

Record SentMessageInfo : Type := mkInfo { messageId : string }.

(** The shared nodemailer transporter. *)
Record Transporter : Type := mkTransporter {
  sendMail : MailOptions -> Error + SentMessageInfo
}.

(** ** Results *)

Record ToolResult : Type := mkToolResult {
  content : list Text;
  isError : bool
}.

Record ResourceContent : Type := mkResourceContent {
  uri : string;
  mimeType : string;
  text : Text
}.

Record ResourceResult : Type := mkResourceResult {
  contents : list ResourceContent
}.

(** The [TypeError] of a property read on [undefined]. *)
Definition cannot_read (property : string) : Error :=
  mkError "TypeError"
    ("Cannot read properties of undefined (reading '" ++ property ++ "')")%string.

(** The loop body over the yielded messages, in order: the first message
    on which the body throws ends the loop with that error. *)
Fixpoint for_each {A : Type} (body : FetchMessageObject -> Error + A)
  (messages : list FetchMessageObject) : Error + list A :=
  match messages with
  | [] => inr []
  | message :: rest =>
      match body message with
      | inl e => inl e
      | inr a =>
          match for_each body rest with
          | inl e => inl e
          | inr pushed => inr (a :: pushed)
          end
      end
  end.

(** [for await (const message of gen) { messages.push(body message) }]:
    the yielded messages are consumed in order, each through the body, which
    may throw; then the generator's error, if any, is thrown. *)
Definition for_await {A : Type} (gen : list FetchMessageObject * option Error)
  (body : FetchMessageObject -> Error + A) : M (list A) :=
  ([EvFetch],
   match for_each body (fst gen) with
   | inl e => inl e
   | inr pushed =>
       match snd gen with
       | Some e => inl e
       | None => inr pushed
       end
   end).

(** The object pushed by both fetch loops. Reading [message.envelope.subject]
    throws when the message has no envelope; [envelope.from.map] and
    [envelope.to.map] throw when the list is absent. *)
Definition toEmailMessage (message : FetchMessageObject) : Error + EmailMessage :=
  match fm_envelope message with
  | None => inl (cannot_read "subject")
  | Some envelope =>
      match env_from envelope with
      | None => inl (cannot_read "map")
      | Some from =>
          match env_to envelope with
          | None => inl (cannot_read "map")
          | Some to =>
              inr {| em_id := fm_uid message;
                     em_subject := env_subject envelope;
                     em_from := map mapAddress from;
                     em_to := map mapAddress to;
                     em_date := env_date envelope;
                     em_text := None;
                     em_html := None |}
          end
      end
  end.

(** ** The handlers *)

Section Server.

(** [env.EMAIL_USER] and the transporter made at startup. *)
Variable emailUser : string.
Variable smtpTransporter : Transporter.

Local Open Scope m_scope.

Definition send_email (to subject text_ : string) (html : option string)
  : M ToolResult :=
  try_catch
    (let mailOptions :=
       {| mo_from := emailUser; mo_to := to; mo_subject := subject;
          mo_text := text_; mo_html := html |} in
     info <- call EvSendMail (sendMail smtpTransporter mailOptions) ;;
     ret {| content :=
              [ JSON_stringify
                  (JObj [ ("messageId", JStr (messageId info));
                          ("status", JStr "Email sent successfully") ]) ];
            isError := false |})
    (fun err =>
       console_error "Error sending email:" ;;;
       ret {| content := [ Str ("Error sending email: " ++ err_message err)%string ];
              isError := true |}).

(** The messages [search_emails] collects inside its [try] block. *)
Definition search_emails_body (client : ImapFlow)
  (query : JsValue) (folder : string) (limit : Z) (fetchOptions : JsValue)
  : M (list EmailMessage) :=
  call EvConnect (connect client) ;;;
  call (EvMailboxOpen folder) (mailboxOpen client folder) ;;;
  uids <- call EvSearch (search client query true) ;;
  let limitedUids := slice0 uids limit in
  if (0 <? List.length limitedUids)%nat
  then for_await (fetch client (Ids limitedUids) fetchOptions false) toEmailMessage
  else ret [].

Definition search_emails (client : ImapFlow)
  (query : JsValue) (folder : string) (limit : Z) (fetchOptions : JsValue)
  : M ToolResult :=
  try_finally
    (try_catch
       (messages <- search_emails_body client query folder limit fetchOptions ;;
        ret {| content := [ JSON_stringify (JArr (map json_of_message messages)) ];
               isError := false |})
       (fun err =>
          console_error "Error searching emails:" ;;;
          ret {| content := [ Str ("Error searching emails: " ++ err_message err)%string ];
                 isError := true |}))
    (call EvLogout (logout client)).

Definition list_folders (client : ImapFlow) : M ToolResult :=
  try_finally
    (try_catch
       (call EvConnect (connect client) ;;;
        listResponse <- call EvList (list_ client) ;;
        let mailboxes :=
          fold_left
            (fun acc mailbox =>
               acc ++ [ {| ef_name := lr_name mailbox;
                           ef_path := lr_path mailbox;
                           ef_specialUse := lr_specialUse mailbox;
                           ef_flags := lr_flags mailbox |} ])
            listResponse [] in
        ret {| content := [ JSON_stringify (JArr (map json_of_folder mailboxes)) ];
               isError := false |})
       (fun err =>
          console_error "Error listing folders:" ;;;
          ret {| content := [ Str ("Error listing folders: " ++ err_message err)%string ];
                 isError := true |}))
    (call EvLogout (logout client)).

Definition envelopeOnly : JsValue := JObj [ ("envelope", JBool true) ].

(** The ten messages the inbox resource keeps. *)
Definition recentMessages (messages : list EmailMessage) : list EmailMessage :=
  slice0 (sort (fun a b => em_date b - em_date a) messages) 10.

Definition inbox_resource (client : ImapFlow) : M ResourceResult :=
  try_finally
    (try_catch
       (call EvConnect (connect client) ;;;
        call (EvMailboxOpen "INBOX") (mailboxOpen client "INBOX") ;;;
        messages <- for_await (fetch client AllMessages envelopeOnly false)
                              toEmailMessage ;;
        ret {| contents :=
                 [ {| uri := ("mailto:" ++ emailUser ++ "/inbox")%string;
                      mimeType := "application/json";
                      text := JSON_stringify
                                (JArr (map json_of_message (recentMessages messages))) |} ] |})
       (fun error =>
          console_error "Error reading inbox:" ;;;
          throw error))
    (call EvLogout (logout client)).

Definition folders_resource (client : ImapFlow) : M ResourceResult :=
  try_finally
    (try_catch
       (call EvConnect (connect client) ;;;
        listResponse <- call EvList (list_ client) ;;
        let mailboxes :=
          fold_left
            (fun acc mailbox =>
               acc ++ [ {| ef_name := lr_name mailbox;
                           ef_path := lr_path mailbox;
                           ef_specialUse := lr_specialUse mailbox;
                           ef_flags := lr_flags mailbox |} ])
            listResponse [] in
        ret {| contents :=
                 [ {| uri := ("mailto:" ++ emailUser ++ "/folders")%string;
                      mimeType := "application/json";
                      text := JSON_stringify (JArr (map json_of_folder mailboxes)) |} ] |})
       (fun error =>
          console_error "Error listing folders:" ;;;
          throw error))
    (call EvLogout (logout client)).

(** *** The five operations under one name *)

Inductive Operation : Type :=
| SendEmail (to subject text_ : string) (html : option string)
| SearchEmails (query : JsValue) (folder : string) (limit : Z) (fetchOptions : JsValue)
| ListFolders
| InboxResource
| FoldersResource.

Inductive Result : Type :=
| OfTool (r : ToolResult)
| OfResource (r : ResourceResult).

Definition lift {A : Type} (f : A -> Result) (m : M A) : M Result :=
  (fst m, match snd m with inl e => inl e | inr a => inr (f a) end).

(** One invocation: a tool or resource handler run with a fresh client
    ([createImapClient()]; [send_email] makes none). *)
Definition invoke (op : Operation) (client : ImapFlow) : M Result :=
  match op with
  | SendEmail to subject text_ html => lift OfTool (send_email to subject text_ html)
  | SearchEmails query folder limit fetchOptions =>
      lift OfTool (search_emails client query folder limit fetchOptions)
  | ListFolders => lift OfTool (list_folders client)
  | InboxResource => lift OfResource (inbox_resource client)
  | FoldersResource => lift OfResource (folders_resource client)
  end.

End Server.

(** ** A mailbox behind the client

    imapflow over a stored folder: the messages in sequence order (the
    sequence number is the position, from 1), each with the unique-id the
    server gave it. [search] answers the numbers of the matching messages,
    [fetch] the messages whose number is in the range, both in mailbox
    order, and both read "number" as unique-id or sequence number by
    their [uid] option; a fetched message carries the parts the fetch
    options ask for. *)

Fixpoint store_from (seq : Z) (msgs : list (Z * MessageEnvelopeObject))
  : list FetchMessageObject :=
  match msgs with
  | [] => []
  | (uid, env) :: rest =>
      {| fm_seq := seq; fm_uid := uid; fm_envelope := Some env;
         fm_source := Some "raw message"; fm_bodyParts := [ ("1", "body") ] |}
      :: store_from (seq + 1) rest
  end.

Definition store (msgs : list (Z * MessageEnvelopeObject)) : list FetchMessageObject :=
  store_from 1 msgs.

Definition number_of (uid : bool) (m : FetchMessageObject) : Z :=
  if uid then fm_uid m else fm_seq m.

Definition in_range (r : Range) (n : Z) : bool :=
  match r with
  | Ids l => existsb (Z.eqb n) l
  | AllMessages => true
  end.

(** Whether the fetch options ask for a part. *)
Definition asks_for (part : string) (fetchOptions : JsValue) : bool :=
  match get part fetchOptions with
  | JBool true => true
  | JObj _ => true
  | _ => false
  end.

Definition asked_parts (fetchOptions : JsValue) : list JsValue :=
  match get "bodyParts" fetchOptions with
  | JArr parts => parts
  | _ => []
  end.

Definition is_asked_part (parts : list JsValue) (part : string * string) : bool :=
  existsb (fun p => match p with JStr k => String.eqb k (fst part) | _ => false end)
          parts.

(** A stored message as [fetch] yields it under the given options. *)
Definition project (fetchOptions : JsValue) (m : FetchMessageObject)
  : FetchMessageObject :=
  {| fm_seq := fm_seq m;
     fm_uid := fm_uid m;
     fm_envelope := if asks_for "envelope" fetchOptions then fm_envelope m else None;
     fm_source := if asks_for "source" fetchOptions then fm_source m else None;
     fm_bodyParts := filter (is_asked_part (asked_parts fetchOptions)) (fm_bodyParts m) |}.

Definition mailbox_client (matches : JsValue -> FetchMessageObject -> bool)
  (stored : list FetchMessageObject) (folders : list ListResponse) : ImapFlow :=
  {| connect := inr tt;
     mailboxOpen := fun _ => inr tt;
     search := fun query uid =>
       inr (map (number_of uid) (filter (matches query) stored));
     fetch := fun range fetchOptions uid =>
       (map (project fetchOptions)
            (filter (fun m => in_range range (number_of uid m)) stored),
        None);
     list_ := inr folders;
     logout := inr tt |}.

Definition not_available : Error := mkError "Error" "Connection not available".

(** A client whose server cannot be reached: every call fails, and so does
    the logout, which finds no connection. *)
Definition unreachable_client (e : Error) : ImapFlow :=
  {| connect := inl e;
     mailboxOpen := fun _ => inl not_available;
     search := fun _ _ => inl not_available;
     fetch := fun _ _ _ => ([], Some not_available);
     list_ := inl not_available;
     logout := inl not_available |}.

(** A client on a live connection whose commands are refused. *)
Definition refusing_client (e : Error) : ImapFlow :=
  {| connect := inr tt;
     mailboxOpen := fun _ => inl e;
     search := fun _ _ => inl e;
     fetch := fun _ _ _ => ([], Some e);
     list_ := inl e;
     logout := inr tt |}.

Definition ok_transporter : Transporter :=
  {| sendMail := fun _ => inr {| messageId := "<1@example.com>" |} |}.

Definition failing_transporter (e : Error) : Transporter :=
  {| sendMail := fun _ => inl e |}.

(** *** Sample data *)

Definition alice : MessageAddressObject :=
  {| addr_name := Some "Alice"; addr_address := Some "alice@example.com" |}.

Definition nameless : MessageAddressObject :=
  {| addr_name := None; addr_address := None |}.

Definition envelope_at (date : Z) : MessageEnvelopeObject :=
  {| env_subject := "hello"; env_from := Some [alice]; env_to := Some [nameless];
     env_date := date |}.

(** The summaries of messages that all carry an envelope with its from and
    to lists; the empty list otherwise. *)
Definition summaries (l : list FetchMessageObject) : list EmailMessage :=
  match for_each toEmailMessage l with
  | inr pushed => pushed
  | inl _ => []
  end.

(** A message sent to hidden recipients only: its envelope has no [to]. *)
Definition envelope_without_to (date : Z) : MessageEnvelopeObject :=
  {| env_subject := "offer"; env_from := Some [alice]; env_to := None;
     env_date := date |}.

(** An inbox with one ordinary message and one without a To header. *)
Definition inbox_with_hidden_recipients : list FetchMessageObject :=
  store [ (1, envelope_at 1000); (2, envelope_without_to 2000) ].

(** Three messages left in a folder whose unique-ids have moved on to 101:
    sequence numbers 1, 2, 3. *)
Definition three_messages : list FetchMessageObject :=
  store [ (101, envelope_at 1000); (102, envelope_at 2000); (103, envelope_at 3000) ].

(** Five messages left after the first two of a folder were expunged:
    sequence numbers 1 to 5, unique-ids 3 to 7. *)
Definition five_messages : list FetchMessageObject :=
  store [ (3, envelope_at 3000); (4, envelope_at 4000); (5, envelope_at 5000);
          (6, envelope_at 6000); (7, envelope_at 7000) ].

(** A folder never expunged: sequence numbers and unique-ids coincide. *)
Definition fresh_messages : list FetchMessageObject :=
  store [ (1, envelope_at 1000); (2, envelope_at 2000); (3, envelope_at 3000) ].

Definition match_all (query : JsValue) (m : FetchMessageObject) : bool := true.

Definition sample_folders : list ListResponse :=
  [ {| lr_name := "INBOX"; lr_path := "INBOX"; lr_specialUse := Some "\Inbox";
       lr_flags := [ "\HasNoChildren" ] |};
    {| lr_name := "Sent"; lr_path := "INBOX/Sent"; lr_specialUse := None;
       lr_flags := [] |} ].

Definition timeout_error : Error := mkError "Error" "connect ETIMEDOUT".

Definition subject_query : JsValue := JObj [ ("subject", JStr "hello") ].

Fixpoint zeros (n : nat) : string :=
  match n with
  | O => EmptyString
  | S n' => String (ch 48) (zeros n')
  end.

(** A digits-only port: 1 followed by 309 zeros. *)
Definition huge_port : string := String (ch 49) (zeros 309).

Definition huge_port_env : list (string * string) :=
  [ ("EMAIL_USER", "me@example.com"); ("EMAIL_PASSWORD", "secret");
    ("IMAP_HOST", "imap.example.com"); ("IMAP_PORT", huge_port);
    ("SMTP_HOST", "smtp.example.com"); ("SMTP_PORT", "465") ].

(** ** The words of the specification, for comparison with the code *)

Definition env_var (k : string) (vars : list (string * string)) : option string :=
  match get k (process_env vars) with
  | JStr s => Some s
  | _ => None
  end.

Definition nonempty (s : string) : bool :=
  match s with EmptyString => false | _ => true end.

(** All six required values present and well-formed. *)
Definition well_formed (vars : list (string * string)) : bool :=
  match env_var "EMAIL_USER" vars, env_var "EMAIL_PASSWORD" vars,
        env_var "IMAP_HOST" vars, env_var "IMAP_PORT" vars,
        env_var "SMTP_HOST" vars, env_var "SMTP_PORT" vars with
  | Some user, Some password, Some imap_host, Some imap_port,
    Some smtp_host, Some smtp_port =>
      is_email user && nonempty password && nonempty imap_host &&
      matches_digits imap_port && nonempty smtp_host && matches_digits smtp_port
  | _, _, _, _, _, _ => false
  end.

Definition is_integer (v : JsValue) : Prop := exists z, v = JNum (NumInt z).

(** The operations that open a mailbox connection. *)
Definition uses_mailbox (op : Operation) : bool :=
  match op with
  | SendEmail _ _ _ _ => false
  | _ => true
  end.


Definition contains (sub s : string) : Prop :=
  exists a b, s = (a ++ sub ++ b)%string.

Fixpoint remove_key (k : string) (fs : list (string * JsValue))
  : list (string * JsValue) :=
  match fs with
  | [] => []
  | (k', v) :: rest =>
      if String.eqb k k' then remove_key k rest else (k', v) :: remove_key k rest
  end.

(** ** Notions used in the statements *)

(** Every mailbox handler ends its trace with its one call to
    [client.logout()]. *)
Definition released_last (t : list event) : Prop :=
  exists before, t = before ++ [EvLogout] /\ releases before = 0%nat.

(** A computation is quiet when it never calls [client.logout()]. *)
Definition quiet {A : Type} (m : M A) : Prop := releases (trace m) = 0%nat.

(** The comparator of the inbox resource: [b.date.getTime() -
    a.date.getTime()]. *)
Definition newest_first (a b : EmailMessage) : Z := em_date b - em_date a.

Definition not_older (a b : EmailMessage) : Prop := em_date b <= em_date a.

(** Twelve messages, stored in no particular date order. *)
Definition twelve_messages : list FetchMessageObject :=
  store [ (1, envelope_at 500); (2, envelope_at 1200); (3, envelope_at 100);
          (4, envelope_at 900); (5, envelope_at 300); (6, envelope_at 1100);
          (7, envelope_at 700); (8, envelope_at 200); (9, envelope_at 1000);
          (10, envelope_at 400); (11, envelope_at 800); (12, envelope_at 600) ].

Definition envelope_only_summary (m : EmailMessage) : Prop :=
  em_text m = None /\ em_html m = None /\
  has_key "text" (json_of_message m) = false /\
  has_key "html" (json_of_message m) = false.

Definition with_bodies : JsValue :=
  JObj [ ("envelope", JBool true); ("source", JBool true);
         ("bodyParts", JArr [ JStr "1" ]) ].

(** The result of searching the fresh folder with limit 2. *)
Definition two_fresh_result : ToolResult :=
  {| content :=
       [ JSON_stringify
           (JArr (map json_of_message
                    (summaries (firstn 2 fresh_messages)))) ];
     isError := false |}.

(** What [startup] gives on the six values once they are read. *)
Definition resolved (user password imap_host imap_port smtp_host smtp_port : string)
  : JsValue :=
  JObj [ ("EMAIL_USER", JStr user);
         ("EMAIL_PASSWORD", JStr password);
         ("IMAP_HOST", JStr imap_host);
         ("IMAP_PORT", JNum (Number imap_port));
         ("SMTP_HOST", JStr smtp_host);
         ("SMTP_PORT", JNum (Number smtp_port)) ].

(** ** Tool argument shapes and transport configuration *)

(** The shape registered with [send_email]. *)
Definition sendEmailShape : shape :=
  [ ("to", z_string_email);
    ("subject", z_string_min1);
    ("text", z_string_min1);
    ("html", z_optional z_string) ].

(** The shape registered with [search_emails]. *)
Definition searchEmailsShape : shape :=
  [ ("query", searchQuerySchema);
    ("fetchOptions", fetchOptionsSchema);
    ("folder", z_default (JStr "INBOX") z_string);
    ("limit", z_default (JNum (NumInt 10)) z_number_int_positive) ].

Record AuthConfig : Type := mkAuth { auth_user : JsValue; auth_pass : JsValue }.

Record TransportConfig : Type := mkTransportConfig {
  cfg_host : JsValue;
  cfg_port : JsValue;
  cfg_secure : bool;
  cfg_auth : AuthConfig
}.

Record EmailConfig : Type := mkEmailConfig {
  imap : TransportConfig;
  smtp : TransportConfig
}.

(** [v === n] for a number literal [n]. *)
Definition strict_eq_number (v : JsValue) (n : Z) : bool :=
  match v with
  | JNum (NumInt z) => z =? n
  | _ => false
  end.

Definition emailConfig (env : JsValue) : EmailConfig :=
  {| imap := {| cfg_host := get "IMAP_HOST" env;
                cfg_port := get "IMAP_PORT" env;
                cfg_secure := true;
                cfg_auth := {| auth_user := get "EMAIL_USER" env;
                               auth_pass := get "EMAIL_PASSWORD" env |} |};
     smtp := {| cfg_host := get "SMTP_HOST" env;
                cfg_port := get "SMTP_PORT" env;
                cfg_secure := strict_eq_number (get "SMTP_PORT" env) 465;
                cfg_auth := {| auth_user := get "EMAIL_USER" env;
                               auth_pass := get "EMAIL_PASSWORD" env |} |} |}.

(** ** Further notions used in the statements *)

Definition succeeded {A : Type} (r : Error + A) : bool :=
  match r with inr _ => true | inl _ => false end.

(** The collaborator calls a handler makes when nothing fails, in the
    order of its source text; [search_emails] fetches only when the slice of
    the search result is not empty. *)
Definition script (op : Operation) (client : ImapFlow) : list event :=
  match op with
  | SendEmail _ _ _ _ => [ EvSendMail ]
  | SearchEmails query folder limit _ =>
      [ EvConnect; EvMailboxOpen folder; EvSearch ] ++
      match search client query true with
      | inr uids =>
          if (0 <? List.length (slice0 uids limit))%nat then [ EvFetch ] else []
      | inl _ => []
      end
  | ListFolders => [ EvConnect; EvList ]
  | InboxResource => [ EvConnect; EvMailboxOpen "INBOX"; EvFetch ]
  | FoldersResource => [ EvConnect; EvList ]
  end.

(** Whether a call of the operation comes back without an error. Nothing
    follows [sendMail] and [fetch] in any script. *)
Definition call_succeeds (op : Operation) (client : ImapFlow) (ev : event) : bool :=
  match ev with
  | EvConnect => succeeded (connect client)
  | EvMailboxOpen folder => succeeded (mailboxOpen client folder)
  | EvSearch =>
      match op with
      | SearchEmails query _ _ _ => succeeded (search client query true)
      | _ => true
      end
  | EvList => succeeded (list_ client)
  | _ => true
  end.

(** The calls of a script up to and including the first that fails. *)
Fixpoint until_failure (ok : event -> bool) (calls : list event) : list event :=
  match calls with
  | [] => []
  | ev :: rest => ev :: (if ok ev then until_failure ok rest else [])
  end.

(** Calls that reach the mail servers before the release. *)
Definition is_work (ev : event) : bool :=
  match ev with
  | EvLogout => false
  | EvConsoleError _ => false
  | _ => true
  end.

Definition is_console_error (ev : event) : bool :=
  match ev with EvConsoleError _ => true | _ => false end.

Definition is_mailbox_tool (op : Operation) : bool :=
  match op with
  | SearchEmails _ _ _ _ => true
  | ListFolders => true
  | _ => false
  end.

(** A transport failure [e] inside a mailbox tool: at connect, at opening
    the folder, at the search, during the fetch of a non-empty slice (met
    once the loop has taken the messages yielded before it), or at
    listing. *)
Definition tool_fails (op : Operation) (client : ImapFlow) (e : Error) : Prop :=
  match op with
  | SearchEmails query folder limit fetchOptions =>
      connect client = inl e \/
      (connect client = inr tt /\ mailboxOpen client folder = inl e) \/
      (connect client = inr tt /\ mailboxOpen client folder = inr tt /\
       search client query true = inl e) \/
      (exists uids,
          connect client = inr tt /\ mailboxOpen client folder = inr tt /\
          search client query true = inr uids /\
          slice0 uids limit <> [] /\
          (exists pushed,
              for_each toEmailMessage
                (fst (fetch client (Ids (slice0 uids limit)) fetchOptions false))
              = inr pushed) /\
          snd (fetch client (Ids (slice0 uids limit)) fetchOptions false) = Some e)
  | ListFolders =>
      connect client = inl e \/
      (connect client = inr tt /\ list_ client = inl e)
  | _ => False
  end.

Definition error_label (op : Operation) : string :=
  match op with
  | SendEmail _ _ _ _ => "Error sending email: "
  | SearchEmails _ _ _ _ => "Error searching emails: "
  | ListFolders => "Error listing folders: "
  | InboxResource => "Error reading inbox:"
  | FoldersResource => "Error listing folders:"
  end.

(** A stored message with an envelope that has its from and to lists. *)
Definition has_headers (m : FetchMessageObject) : bool :=
  match fm_envelope m with
  | Some envelope =>
      match env_from envelope, env_to envelope with
      | Some _, Some _ => true
      | _, _ => false
      end
  | None => false
  end.

(** [s] is [l] with some elements left out. *)
Inductive subseq {A : Type} : list A -> list A -> Prop :=
| subseq_nil : forall l, subseq [] l
| subseq_keep : forall x s l, subseq s l -> subseq (x :: s) (x :: l)
| subseq_skip : forall x s l, subseq s l -> subseq s (x :: l).

(** The messages of the wanted date, in list order. *)
Definition dated (d : Z) (l : list EmailMessage) : list EmailMessage :=
  filter (fun m => em_date m =? d) l.

(** A query with two alternatives. *)
Definition either_subject : JsValue :=
  JObj [ ("subject", JStr "hello");
         ("or", JArr [ JObj [ ("subject", JStr "a") ];
                       JObj [ ("subject", JStr "b"); ("seen", JBool false) ] ]) ].

(** A query with a key the schema does not know and an [or] inside an
    [or], and what the schema makes of it. *)
Definition nested_query : JsValue :=
  JObj [ ("subject", JStr "x"); ("folder", JStr "Sent");
         ("or", JArr [ JObj [ ("subject", JStr "y");
                              ("or", JArr [ JObj [ ("subject", JStr "z") ] ]) ] ]) ].

Definition nested_query_parsed : JsValue :=
  JObj [ ("subject", JStr "x");
         ("or", JArr [ JObj [ ("subject", JStr "y") ] ]) ].

(** [search_emails] called with a query and empty fetch options only. *)
Definition bare_arguments : JsValue :=
  JObj [ ("query", subject_query); ("fetchOptions", JObj []) ].

Definition bare_arguments_parsed : JsValue :=
  JObj [ ("query", subject_query); ("fetchOptions", JObj []);
         ("folder", JStr "INBOX"); ("limit", JNum (NumInt 10)) ].

Definition mail_arguments : JsValue :=
  JObj [ ("to", JStr "you@example.com"); ("subject", JStr "hi");
         ("text", JStr "hello") ].

(** A client that connects and then fails at the release. *)
Definition stuck_logout_client (e : Error) : ImapFlow :=
  {| connect := inr tt;
     mailboxOpen := fun _ => inr tt;
     search := fun _ _ => inr [];
     fetch := fun _ _ _ => ([], None);
     list_ := inr [];
     logout := inl e |}.

(** * Properties *)

(** ** Sample runs *)

Example startup_sample :
  startup sample_env =
  Serving (JObj [ ("EMAIL_USER", JStr "me@example.com");
                  ("EMAIL_PASSWORD", JStr "secret");
                  ("IMAP_HOST", JStr "imap.example.com");
                  ("IMAP_PORT", JNum (NumInt 993));
                  ("SMTP_HOST", JStr "smtp.example.com");
                  ("SMTP_PORT", JNum (NumInt 465)) ]).
Proof. vm_compute. reflexivity. Qed.

Example email_samples :
  map is_email ["a@b.co"; "a.b+c@x-y.example.org"; ".a@b.co"; "a..b@c.de";
                "a@b"; "a@b.c"; "a@-b.co"; "a.@b.co"; "a@b@c.de"; ""]
  = [true; true; false; false; false; false; false; false; false; false].
Proof. vm_compute. reflexivity. Qed.


(** ** Address mapper *)

Lemma or_else_empty (a : option string) :
  or_else a "" = match a with Some s => s | None => "" end.
Proof. destruct a as [[|c s]|]; reflexivity. Qed.

(** C4: [mapAddress] is a total function on address records. For every
    record the name is carried over as it is, present or absent, and with it
    the [name] entry of the serialised object; a record with no [address]
    maps to the empty string, and a record with an address maps to that
    address. *)
Theorem mapAddress_defaults_address (addr : MessageAddressObject) :
  ea_name (mapAddress addr) = addr_name addr /\
  get "name" (json_of_address (mapAddress addr)) = opt_str (addr_name addr) /\
  (addr_address addr = None ->
   ea_address (mapAddress addr) = "" /\
   get "address" (json_of_address (mapAddress addr)) = JStr "") /\
  (forall s, addr_address addr = Some s -> ea_address (mapAddress addr) = s).
Proof.
  unfold mapAddress. cbn. split; [reflexivity |]. split; [reflexivity |]. split.
  - intros Habsent. rewrite Habsent. split; reflexivity.
  - intros s Hs. rewrite Hs, or_else_empty. reflexivity.
Qed.

Lemma mapAddress_defaults_address_witness :
  ea_address (mapAddress nameless) = "" /\
  ea_name (mapAddress nameless) = None /\
  ea_name (mapAddress (mkAddr (Some "Bob") None)) = Some "Bob" /\
  ea_name (mapAddress alice) = Some "Alice" /\
  ea_address (mapAddress alice) = "alice@example.com".
Proof.
  destruct (mapAddress_defaults_address nameless) as [Hname [_ [Habsent _]]].
  destruct (mapAddress_defaults_address (mkAddr (Some "Bob") None)) as [Hbob _].
  destruct (mapAddress_defaults_address alice) as [Halice [_ [_ Hpresent]]].
  split; [apply Habsent; reflexivity |].
  split; [exact Hname |].
  split; [exact Hbob |].
  split; [exact Halice | apply Hpresent; reflexivity].
Defined.

(** ** The effect monad *)

Lemma releases_app (t u : list event) :
  releases (t ++ u) = (releases t + releases u)%nat.
Proof. unfold releases. rewrite filter_app, length_app. reflexivity. Qed.

Lemma contains_suffix (pre s : string) : contains s (pre ++ s)%string.
Proof.
  exists pre, EmptyString. f_equal.
  induction s as [|c s IH]; cbn; [reflexivity | now rewrite <- IH].
Qed.

(** ** [send_email] *)

(** C5: when the delivery transport fails, [send_email] returns (it does
    not throw) a result with the error flag set whose text is
    "Error sending email: " followed by the failure's message. *)
Theorem send_email_transport_failure
  (emailUser : string) (tr : Transporter)
  (to subject text_ : string) (html : option string) (e : Error) :
  sendMail tr (mkMailOptions emailUser to subject text_ html) = inl e ->
  exists r s,
    outcome (send_email emailUser tr to subject text_ html) = inr r /\
    isError r = true /\
    content r = [ Str s ] /\
    s = ("Error sending email: " ++ err_message e)%string /\
    contains (err_message e) s.
Proof.
  intros Hfail. unfold send_email, outcome, try_catch, bind, call.
  rewrite Hfail. cbn.
  eexists; eexists. split; [reflexivity |].
  cbn. repeat split. apply (contains_suffix "Error sending email: ").
Qed.

Lemma send_email_transport_failure_witness :
  exists r s,
    outcome (send_email "me@example.com" (failing_transporter timeout_error)
               "you@example.com" "hi" "hello" None) = inr r /\
    isError r = true /\
    content r = [ Str s ] /\
    s = "Error sending email: connect ETIMEDOUT" /\
    contains "connect ETIMEDOUT" s.
Proof.
  apply (send_email_transport_failure "me@example.com"
           (failing_transporter timeout_error) "you@example.com" "hi" "hello"
           None timeout_error).
  reflexivity.
Defined.

(** ** Folder mapping *)

Lemma push_loop {A B : Type} (f : A -> B) (l : list A) (acc : list B) :
  fold_left (fun acc x => acc ++ [f x]) l acc = acc ++ map f l.
Proof.
  revert acc. induction l as [|x l IH]; intros acc; cbn.
  - now rewrite app_nil_r.
  - rewrite IH, <- app_assoc. reflexivity.
Qed.

(** C10: on the same list response, [list_folders] and the folders
    resource serialise the same array of folders: one [EmailFolder] per
    mailbox, in order, with its name, path, special use and flags. *)
Theorem folders_same_mapping
  (emailUser : string) (client : ImapFlow) (listResponse : list ListResponse) :
  connect client = inr tt ->
  list_ client = inr listResponse ->
  logout client = inr tt ->
  exists mailboxes : list EmailFolder,
    mailboxes =
      map (fun mailbox => mkEmailFolder (lr_name mailbox) (lr_path mailbox)
                            (lr_specialUse mailbox) (lr_flags mailbox))
          listResponse /\
    outcome (list_folders client) =
      inr {| content := [ JSON_stringify (JArr (map json_of_folder mailboxes)) ];
             isError := false |} /\
    outcome (folders_resource emailUser client) =
      inr {| contents :=
               [ {| uri := ("mailto:" ++ emailUser ++ "/folders")%string;
                    mimeType := "application/json";
                    text := JSON_stringify (JArr (map json_of_folder mailboxes)) |} ] |}.
Proof.
  intros Hc Hl Ho. eexists. split; [reflexivity |].
  unfold list_folders, folders_resource, outcome, try_finally, try_catch, bind, call, ret.
  rewrite Hc, Hl, Ho. cbn. rewrite !push_loop. cbn. split; reflexivity.
Qed.

Lemma folders_same_mapping_witness :
  exists mailboxes : list EmailFolder,
    List.length mailboxes = 2%nat /\
    outcome (list_folders (mailbox_client match_all [] sample_folders)) =
      inr {| content := [ JSON_stringify (JArr (map json_of_folder mailboxes)) ];
             isError := false |} /\
    outcome (folders_resource "me@example.com"
               (mailbox_client match_all [] sample_folders)) =
      inr {| contents :=
               [ {| uri := "mailto:me@example.com/folders";
                    mimeType := "application/json";
                    text := JSON_stringify (JArr (map json_of_folder mailboxes)) |} ] |}.
Proof.
  destruct (folders_same_mapping "me@example.com"
              (mailbox_client match_all [] sample_folders) sample_folders
              eq_refl eq_refl eq_refl) as [mailboxes [Hm [Ht Hr]]].
  exists mailboxes. subst mailboxes. split; [reflexivity |]. split; assumption.
Defined.

(** ** Connection release *)

Lemma released_last_once (t : list event) :
  released_last t -> releases t = 1%nat.
Proof.
  intros [before [-> H0]]. rewrite releases_app, H0. reflexivity.
Qed.

Lemma finally_logout_last {A : Type} (m : M A) (client : ImapFlow) :
  releases (trace m) = 0%nat ->
  released_last (trace (try_finally m (call EvLogout (logout client)))).
Proof.
  intros H0. destruct m as [t r]. exists t. split; [| exact H0].
  unfold try_finally, call, trace. destruct (logout client); reflexivity.
Qed.

Lemma quiet_ret {A : Type} (a : A) : quiet (ret a).
Proof. reflexivity. Qed.

Lemma quiet_throw {A : Type} (e : Error) : quiet (@throw A e).
Proof. reflexivity. Qed.

Lemma quiet_call {A : Type} (ev : event) (r : Error + A) :
  is_logout ev = false -> quiet (call ev r).
Proof. intros H. unfold quiet, call, trace, releases. cbn. now rewrite H. Qed.

Lemma quiet_console_error (label : string) : quiet (console_error label).
Proof. reflexivity. Qed.

Lemma quiet_for_await {A : Type} gen (body : FetchMessageObject -> Error + A) :
  quiet (for_await gen body).
Proof. reflexivity. Qed.

Lemma quiet_bind {A B : Type} (m : M A) (k : A -> M B) :
  quiet m -> (forall a, quiet (k a)) -> quiet (bind m k).
Proof.
  unfold quiet, bind, trace. intros Hm Hk.
  destruct m as [t [e|a]]; cbn [fst] in *.
  - exact Hm.
  - specialize (Hk a). destruct (k a) as [t' r]. cbn [fst] in *.
    now rewrite releases_app, Hm, Hk.
Qed.

Lemma quiet_try_catch {A : Type} (m : M A) (h : Error -> M A) :
  quiet m -> (forall e, quiet (h e)) -> quiet (try_catch m h).
Proof.
  unfold quiet, try_catch, trace. intros Hm Hh.
  destruct m as [t [e|a]]; cbn [fst] in *.
  - specialize (Hh e). destruct (h e) as [t' r]. cbn [fst] in *.
    now rewrite releases_app, Hm, Hh.
  - exact Hm.
Qed.

Create HintDb quiet.
#[local] Hint Resolve quiet_ret quiet_throw quiet_console_error quiet_for_await : quiet.

Ltac quiet_steps :=
  repeat first
    [ apply quiet_try_catch
    | apply quiet_bind
    | apply quiet_call; reflexivity
    | solve [ auto with quiet ]
    | intro ].

Lemma search_emails_body_quiet (client : ImapFlow)
  (query : JsValue) (folder : string) (limit : Z) (fetchOptions : JsValue) :
  quiet (search_emails_body client query folder limit fetchOptions).
Proof.
  unfold search_emails_body. quiet_steps.
  destruct (0 <? _)%nat; auto with quiet.
Qed.

Lemma mailbox_handlers_release_last
  (emailUser : string) (tr : Transporter) (op : Operation) (client : ImapFlow) :
  uses_mailbox op = true ->
  released_last (trace (invoke emailUser tr op client)).
Proof.
  intros Hop. destruct op; try discriminate Hop; cbn [invoke lift trace fst].
  - apply finally_logout_last. apply quiet_try_catch; [| quiet_steps].
    apply quiet_bind; [apply search_emails_body_quiet | quiet_steps].
  - apply finally_logout_last. quiet_steps.
  - apply finally_logout_last. quiet_steps.
  - apply finally_logout_last. quiet_steps.
Qed.

Lemma send_email_never_releases
  (emailUser : string) (tr : Transporter)
  (to subject text_ : string) (html : option string) :
  releases (trace (send_email emailUser tr to subject text_ html)) = 0%nat.
Proof.
  unfold send_email, try_catch, bind, call, ret, trace.
  destruct (sendMail tr _); reflexivity.
Qed.

(** C2, as the code has it: the four operations that open a mailbox
    connection (search_emails, list_folders, the inbox resource, the folders
    resource) call [client.logout()] exactly once on every outcome, and
    that call is the last one before the result or the error leaves the
    handler. *)
Theorem mailbox_operations_release_once
  (emailUser : string) (tr : Transporter) (op : Operation) (client : ImapFlow) :
  uses_mailbox op = true ->
  releases (trace (invoke emailUser tr op client)) = 1%nat /\
  released_last (trace (invoke emailUser tr op client)).
Proof.
  intros Hop. split.
  - apply released_last_once. now apply mailbox_handlers_release_last.
  - now apply mailbox_handlers_release_last.
Qed.

Lemma mailbox_operations_release_once_witness :
  releases (trace (invoke "me@example.com" ok_transporter
                     (SearchEmails subject_query "INBOX" 10 (JObj []))
                     (unreachable_client timeout_error))) = 1%nat /\
  releases (trace (invoke "me@example.com" ok_transporter InboxResource
                     (mailbox_client match_all three_messages []))) = 1%nat.
Proof.
  split.
  - apply (mailbox_operations_release_once "me@example.com" ok_transporter
             (SearchEmails subject_query "INBOX" 10 (JObj []))
             (unreachable_client timeout_error)).
    reflexivity.
  - apply (mailbox_operations_release_once "me@example.com" ok_transporter
             InboxResource (mailbox_client match_all three_messages [])).
    reflexivity.
Defined.

(** C2 as stated fails for [send_email]: it makes no mailbox client and
    its trace holds no release at all, on success and on failure. *)
Lemma send_email_releases_nothing :
  releases (trace (invoke "me@example.com" ok_transporter
                     (SendEmail "you@example.com" "hi" "hello" None)
                     (mailbox_client match_all three_messages []))) <> 1%nat /\
  releases (trace (invoke "me@example.com" (failing_transporter timeout_error)
                     (SendEmail "you@example.com" "hi" "hello" None)
                     (mailbox_client match_all three_messages []))) <> 1%nat.
Proof. split; vm_compute; discriminate. Qed.

(** ** Resources re-raise *)





(** ** Sorting and truncation *)

Lemma slice0_firstn {A : Type} (l : list A) (e : Z) :
  0 <= e -> slice0 l e = firstn (Z.to_nat e) l.
Proof.
  intros He. unfold slice0.
  destruct (e <? 0) eqn:Hneg; [apply Z.ltb_lt in Hneg; lia |].
  destruct (Z.min_spec e (Z.of_nat (List.length l))) as [[Hlt ->] | [Hge ->]].
  - reflexivity.
  - rewrite Nat2Z.id, firstn_all. symmetry. apply firstn_all2. lia.
Qed.

Lemma slice0_length {A : Type} (l : list A) (e : Z) :
  0 <= e -> List.length (slice0 l e) = Nat.min (Z.to_nat e) (List.length l).
Proof. intros He. rewrite slice0_firstn by exact He. apply length_firstn. Qed.

Lemma sort_insert_perm {A : Type} (cmp : A -> A -> Z) (x : A) (l : list A) :
  Permutation (sort_insert cmp x l) (x :: l).
Proof.
  induction l as [|y l IH]; cbn.
  - reflexivity.
  - destruct (0 <? cmp x y).
    + rewrite IH. apply perm_swap.
    + reflexivity.
Qed.

Lemma sort_perm {A : Type} (cmp : A -> A -> Z) (l : list A) :
  Permutation (sort cmp l) l.
Proof.
  induction l as [|x l IH]; cbn.
  - reflexivity.
  - fold (sort cmp l). rewrite sort_insert_perm. now constructor.
Qed.

Lemma not_older_trans : Relations_1.Transitive not_older.
Proof. unfold Relations_1.Transitive, not_older. intros; lia. Qed.

Lemma sort_insert_sorted (x : EmailMessage) (l : list EmailMessage) :
  Sorted not_older l -> Sorted not_older (sort_insert newest_first x l).
Proof.
  induction l as [|y l IH]; intros Hs; cbn.
  - repeat constructor.
  - unfold newest_first at 1. destruct (0 <? em_date y - em_date x) eqn:Hcmp.
    + apply Z.ltb_lt in Hcmp. inversion Hs as [|? ? Hs' Hhd]; subst.
      constructor; [now apply IH |].
      destruct l as [|z l]; cbn.
      * constructor. unfold not_older. lia.
      * unfold newest_first at 1.
        destruct (0 <? em_date z - em_date x); constructor.
        -- now inversion Hhd.
        -- unfold not_older. lia.
    + apply Z.ltb_ge in Hcmp. constructor; [exact Hs |].
      constructor. unfold not_older. lia.
Qed.

Lemma sort_sorted (l : list EmailMessage) :
  StronglySorted not_older (sort newest_first l).
Proof.
  apply Sorted_StronglySorted; [exact not_older_trans |].
  induction l as [|x l IH]; cbn.
  - constructor.
  - now apply sort_insert_sorted.
Qed.

Lemma strongly_sorted_split (l1 l2 : list EmailMessage) :
  StronglySorted not_older (l1 ++ l2) ->
  StronglySorted not_older l1 /\
  forall a b, In a l1 -> In b l2 -> not_older a b.
Proof.
  induction l1 as [|x l1 IH]; cbn; intros Hs.
  - split; [constructor | intros a b []].
  - inversion Hs as [|? ? Hs' Hall]; subst.
    destruct (IH Hs') as [Hl1 Hcross]. split.
    + constructor; [exact Hl1 |].
      rewrite Forall_forall in *. intros y Hy. apply Hall, in_or_app. now left.
    + intros a b [<- | Ha] Hb.
      * rewrite Forall_forall in Hall. apply Hall, in_or_app. now right.
      * now apply Hcross.
Qed.

Lemma nodup_map_split {A B : Type} (f : A -> B) (l1 l2 : list A) :
  NoDup (map f (l1 ++ l2)) ->
  NoDup (map f l1) /\ forall a b, In a l1 -> In b l2 -> f a <> f b.
Proof.
  induction l1 as [|x l1 IH]; cbn; intros Hnd.
  - split; [constructor | intros a b []].
  - inversion Hnd as [|? ? Hnot Hnd']; subst.
    destruct (IH Hnd') as [Hl1 Hcross]. split.
    + constructor; [| exact Hl1].
      intros Hin. apply Hnot. rewrite map_app. apply in_or_app. now left.
    + intros a b [<- | Ha] Hb.
      * intros Heq. apply Hnot. rewrite map_app. apply in_or_app. right.
        rewrite Heq. now apply in_map.
      * now apply Hcross.
Qed.

Lemma strongly_sorted_strict (l : list EmailMessage) :
  StronglySorted not_older l -> NoDup (map em_date l) ->
  StronglySorted (fun a b => em_date b < em_date a) l.
Proof.
  induction 1 as [|x l Hs IH Hall]; cbn; intros Hnd.
  - constructor.
  - inversion Hnd as [|? ? Hnot Hnd']; subst.
    constructor; [now apply IH |].
    rewrite Forall_forall in *. intros y Hy.
    specialize (Hall y Hy). unfold not_older in Hall.
    assert (em_date y <> em_date x).
    { intros Heq. apply Hnot. rewrite <- Heq. now apply in_map. }
    lia.
Qed.

(** What the sort and the slice of the inbox resource keep, for
    messages with pairwise distinct dates. *)
Lemma recentMessages_spec (messages : list EmailMessage) :
  NoDup (map em_date messages) ->
  let recent := recentMessages messages in
  List.length recent = Nat.min 10 (List.length messages) /\
  StronglySorted (fun a b => em_date b < em_date a) recent /\
  (forall m, In m recent -> In m messages) /\
  (forall m m', In m recent -> In m' messages -> ~ In m' recent ->
                em_date m' < em_date m).
Proof.
  intros Hnd recent. subst recent. unfold recentMessages.
  fold newest_first. rewrite slice0_firstn by lia.
  change (Z.to_nat 10) with 10%nat.
  set (sorted := sort newest_first messages).
  assert (Hperm : Permutation sorted messages) by apply sort_perm.
  assert (Hsorted : StronglySorted not_older sorted) by apply sort_sorted.
  assert (Hnd' : NoDup (map em_date sorted)).
  { eapply Permutation_NoDup; [| exact Hnd].
    apply Permutation_map. now symmetry. }
  rewrite <- (firstn_skipn 10 sorted) in Hsorted, Hnd'.
  destruct (strongly_sorted_split _ _ Hsorted) as [Hfirst Hcross].
  destruct (nodup_map_split em_date _ _ Hnd') as [Hndfirst Hdiff].
  repeat split.
  - rewrite length_firstn. now rewrite (Permutation_length Hperm).
  - now apply strongly_sorted_strict.
  - intros m Hm. eapply Permutation_in; [exact Hperm |].
    rewrite <- (firstn_skipn 10 sorted). apply in_or_app. now left.
  - intros m m' Hm Hm' Hout.
    assert (Hin : In m' (firstn 10 sorted ++ skipn 10 sorted)).
    { rewrite firstn_skipn. eapply Permutation_in; [| exact Hm'].
      now symmetry. }
    apply in_app_or in Hin. destruct Hin as [Hin | Hin]; [contradiction |].
    specialize (Hcross m m' Hm Hin). specialize (Hdiff m m' Hm Hin).
    unfold not_older in Hcross. lia.
Qed.

Lemma recentMessages_all (messages : list EmailMessage) :
  (List.length messages <= 10)%nat ->
  Permutation (recentMessages messages) messages.
Proof.
  intros Hlen. unfold recentMessages. rewrite slice0_firstn by lia.
  change (Z.to_nat 10) with 10%nat.
  rewrite firstn_all2.
  - apply sort_perm.
  - now rewrite (Permutation_length (sort_perm _ messages)).
Qed.

(** ** Inbox resource *)

Lemma for_each_each {A : Type} (body : FetchMessageObject -> Error + A)
  (messages : list FetchMessageObject) (pushed : list A) :
  for_each body messages = inr pushed ->
  Forall2 (fun message a => body message = inr a) messages pushed.
Proof.
  revert pushed. induction messages as [|m rest IH]; cbn; intros pushed H.
  - injection H as <-. constructor.
  - destruct (body m) as [e|a] eqn:Hm; [discriminate |].
    destruct (for_each body rest) as [e|done]; [discriminate |].
    injection H as <-. constructor; [exact Hm | now apply IH].
Qed.

Lemma for_each_length {A : Type} (body : FetchMessageObject -> Error + A)
  (messages : list FetchMessageObject) (pushed : list A) :
  for_each body messages = inr pushed ->
  List.length pushed = List.length messages.
Proof.
  intros H. apply for_each_each in H. symmetry.
  induction H; cbn; congruence.
Qed.

(** The loop of the inbox resource stops at the first message that has no
    envelope, no [from] or no [to], and the resource throws that error. *)
Lemma inbox_resource_malformed_message
  (emailUser : string) (client : ImapFlow) (e : Error) :
  connect client = inr tt ->
  mailboxOpen client "INBOX" = inr tt ->
  for_each toEmailMessage (fst (fetch client AllMessages envelopeOnly false)) = inl e ->
  logout client = inr tt ->
  inbox_resource emailUser client =
    ([ EvConnect; EvMailboxOpen "INBOX"; EvFetch;
       EvConsoleError "Error reading inbox:"; EvLogout ], inl e).
Proof.
  intros Hc Ho Hf Hl.
  unfold inbox_resource, try_finally, try_catch, bind, call, for_await, ret,
    throw, console_error.
  rewrite Hc, Ho, Hf, Hl. reflexivity.
Qed.

(** C7 at an inbox of two messages with distinct dates, one of them sent
    to hidden recipients only: its envelope has no [to], reading
    [message.envelope.to.map] throws, and the resource throws the TypeError
    to the host where the two messages, newest first, were to be
    returned. *)
Theorem inbox_throws_on_missing_to :
  let client := mailbox_client match_all inbox_with_hidden_recipients [] in
  map (fun m => option_map env_date (fm_envelope m))
      (fst (fetch client AllMessages envelopeOnly false)) =
    [ Some 1000; Some 2000 ] /\
  map toEmailMessage (fst (fetch client AllMessages envelopeOnly false)) =
    [ inr {| em_id := 1; em_subject := "hello";
             em_from := [ mkEmailAddress (Some "Alice") "alice@example.com" ];
             em_to := [ mkEmailAddress None "" ];
             em_date := 1000; em_text := None; em_html := None |};
      inl (cannot_read "map") ] /\
  inbox_resource "me@example.com" client =
    ([ EvConnect; EvMailboxOpen "INBOX"; EvFetch;
       EvConsoleError "Error reading inbox:"; EvLogout ],
     inl (mkError "TypeError"
            "Cannot read properties of undefined (reading 'map')")).
Proof. cbv zeta. repeat split. Qed.

(** X17: when every fetched message carries an envelope with its from and
    to lists, the dates are pairwise distinct and the transport does not
    fail, the inbox resource returns the JSON of at most 10 of the
    messages: 10 when there are more, all of them otherwise; sorted by date
    descending; each returned message newer than every message left
    out. *)
Theorem inbox_ten_most_recent
  (emailUser : string) (client : ImapFlow)
  (fetched : list FetchMessageObject) (messages : list EmailMessage) :
  connect client = inr tt ->
  mailboxOpen client "INBOX" = inr tt ->
  fetch client AllMessages envelopeOnly false = (fetched, None) ->
  logout client = inr tt ->
  for_each toEmailMessage fetched = inr messages ->
  NoDup (map em_date messages) ->
  exists recent : list EmailMessage,
    outcome (inbox_resource emailUser client) =
      inr {| contents :=
               [ {| uri := ("mailto:" ++ emailUser ++ "/inbox")%string;
                    mimeType := "application/json";
                    text := JSON_stringify (JArr (map json_of_message recent)) |} ] |} /\
    List.length recent = Nat.min 10 (List.length fetched) /\
    StronglySorted (fun a b => em_date b < em_date a) recent /\
    (forall m, In m recent -> In m messages) /\
    (forall m m', In m recent -> In m' messages ->
                  ~ In m' recent -> em_date m' < em_date m) /\
    ((List.length fetched <= 10)%nat -> Permutation recent messages).
Proof.
  intros Hc Ho Hf Hl Hmap Hnd.
  exists (recentMessages messages). split.
  - unfold inbox_resource, outcome, try_finally, try_catch, bind, call,
      for_await, ret.
    rewrite Hc, Ho, Hf, Hl. cbn [fst snd]. rewrite Hmap. reflexivity.
  - destruct (recentMessages_spec _ Hnd) as [Hlen [Hsorted [Hin Hout]]].
    rewrite (for_each_length _ _ _ Hmap) in Hlen. repeat split; try assumption.
    intros Hfew. apply recentMessages_all.
    now rewrite (for_each_length _ _ _ Hmap).
Qed.

Lemma inbox_ten_most_recent_witness :
  exists recent : list EmailMessage,
    outcome (inbox_resource "me@example.com"
               (mailbox_client match_all twelve_messages [])) =
      inr {| contents :=
               [ {| uri := "mailto:me@example.com/inbox";
                    mimeType := "application/json";
                    text := JSON_stringify (JArr (map json_of_message recent)) |} ] |} /\
    List.length recent = 10%nat /\
    StronglySorted (fun a b => em_date b < em_date a) recent.
Proof.
  destruct (inbox_ten_most_recent "me@example.com"
              (mailbox_client match_all twelve_messages [])
              (map (project envelopeOnly) twelve_messages)
              (summaries (map (project envelopeOnly) twelve_messages)))
    as [recent [Hout [Hlen [Hsorted _]]]]; try reflexivity.
  - repeat (constructor; [cbn; intuition discriminate |]). constructor.
  - exists recent. split; [exact Hout |]. split; [exact Hlen | exact Hsorted].
Defined.

Example inbox_twelve_dates :
  map em_date (recentMessages (summaries twelve_messages)) =
  [1200; 1100; 1000; 900; 800; 700; 600; 500; 400; 300].
Proof. vm_compute. reflexivity. Qed.

(** ** [search_emails] *)

Lemma toEmailMessage_summary (message : FetchMessageObject) (m : EmailMessage) :
  toEmailMessage message = inr m -> envelope_only_summary m.
Proof.
  unfold toEmailMessage.
  destruct (fm_envelope message) as [envelope|]; [| discriminate].
  destruct (env_from envelope); [| discriminate].
  destruct (env_to envelope); [| discriminate].
  intros [= <-]. repeat split.
Qed.

Lemma search_emails_body_summaries (client : ImapFlow)
  (query : JsValue) (folder : string) (limit : Z) (fetchOptions : JsValue)
  (messages : list EmailMessage) :
  outcome (search_emails_body client query folder limit fetchOptions) = inr messages ->
  Forall envelope_only_summary messages.
Proof.
  unfold search_emails_body, outcome, bind, call, for_await, ret.
  destruct (connect client); cbn; [discriminate |].
  destruct (mailboxOpen client folder); cbn; [discriminate |].
  destruct (search client query true) as [e|uids]; cbn; [discriminate |].
  destruct (slice0 uids limit) as [|uid1 rest]; cbn.
  - intros [= <-]. constructor.
  - destruct (for_each toEmailMessage
                (fst (fetch client (Ids (uid1 :: rest)) fetchOptions false)))
      as [e|pushed] eqn:Hloop; cbn; [discriminate |].
    destruct (snd (fetch client (Ids (uid1 :: rest)) fetchOptions false));
      cbn; [discriminate |].
    intros [= <-]. apply for_each_each in Hloop.
    induction Hloop as [|message m fetched pushed Hm _ IH]; constructor;
      [now apply (toEmailMessage_summary message) | exact IH].
Qed.

(** C9: whatever the fetch options ask for, every message of a successful
    [search_emails] result carries id, subject, from, to and date only:
    [text] and [html] are not set and are no keys of the serialised
    object. *)
Theorem search_emails_summary_only (client : ImapFlow)
  (query : JsValue) (folder : string) (limit : Z) (fetchOptions : JsValue)
  (r : ToolResult) :
  outcome (search_emails client query folder limit fetchOptions) = inr r ->
  isError r = false ->
  exists messages : list EmailMessage,
    content r = [ JSON_stringify (JArr (map json_of_message messages)) ] /\
    Forall envelope_only_summary messages.
Proof.
  unfold search_emails, outcome, try_finally, try_catch, bind.
  pose proof (search_emails_body_summaries client query folder limit fetchOptions)
    as Hbody.
  unfold outcome in Hbody.
  destruct (search_emails_body client query folder limit fetchOptions)
    as [t [e|messages]]; cbn; unfold call;
    destruct (logout client); cbn; try discriminate.
  - intros [= <-]. cbn. discriminate.
  - intros [= <-] _. exists messages. split; [reflexivity |].
    now apply Hbody.
Qed.

Lemma search_emails_summary_only_witness :
  outcome (search_emails (mailbox_client match_all fresh_messages [])
             subject_query "INBOX" 2 with_bodies) = inr two_fresh_result /\
  exists messages : list EmailMessage,
    content two_fresh_result =
      [ JSON_stringify (JArr (map json_of_message messages)) ] /\
    Forall envelope_only_summary messages.
Proof.
  split; [reflexivity |].
  apply (search_emails_summary_only
           (mailbox_client match_all fresh_messages [])
           subject_query "INBOX" 2 with_bodies two_fresh_result);
    reflexivity.
Defined.

(** What [search_emails] hands to [client.fetch] on a successful search:
    the first [limit] numbers of the search result, which [search] was asked
    to give as unique-ids, in an array, with no [uid] option. *)
Lemma search_emails_body_fetch (client : ImapFlow)
  (query : JsValue) (folder : string) (limit : Z) (fetchOptions : JsValue)
  (uids : list Z) :
  connect client = inr tt ->
  mailboxOpen client folder = inr tt ->
  search client query true = inr uids ->
  0 < limit ->
  uids <> [] ->
  let limitedUids := firstn (Z.to_nat limit) uids in
  List.length limitedUids = Nat.min (Z.to_nat limit) (List.length uids) /\
  outcome (search_emails_body client query folder limit fetchOptions) =
    match for_each toEmailMessage
            (fst (fetch client (Ids limitedUids) fetchOptions false)) with
    | inl e => inl e
    | inr pushed =>
        match snd (fetch client (Ids limitedUids) fetchOptions false) with
        | Some e => inl e
        | None => inr pushed
        end
    end.
Proof.
  intros Hc Ho Hs Hlimit Hne limitedUids. split; [apply length_firstn |].
  unfold search_emails_body, outcome, bind, call, for_await, ret.
  rewrite Hc, Ho, Hs. cbn. rewrite slice0_firstn by lia.
  fold limitedUids.
  destruct limitedUids as [|uid1 rest] eqn:Hl.
  - exfalso. destruct uids as [|u us]; [congruence |].
    subst limitedUids. destruct (Z.to_nat limit) eqn:Hn; [lia | discriminate].
  - cbn.
    destruct (for_each toEmailMessage
                (fst (fetch client (Ids (uid1 :: rest)) fetchOptions false)));
      [reflexivity |].
    destruct (snd (fetch client (Ids (uid1 :: rest)) fetchOptions false));
      reflexivity.
Qed.

(** C1 at a folder whose unique-ids differ from its sequence numbers: the
    search answers the unique-ids 3, 4, 5, 6, 7; with limit 2 the handler
    keeps 3 and 4 and fetches them as sequence numbers, which are the
    messages with the unique-ids 5 and 6; the result holds two messages, but
    not those of the first two unique-ids of the search. *)
Theorem search_emails_fetches_by_sequence_number :
  let client := mailbox_client match_all five_messages [] in
  search client subject_query true = inr [3; 4; 5; 6; 7] /\
  slice0 [3; 4; 5; 6; 7] 2 = [3; 4] /\
  map fm_uid (fst (fetch client (Ids [3; 4]) envelopeOnly true)) = [3; 4] /\
  map fm_uid (fst (fetch client (Ids [3; 4]) envelopeOnly false)) = [5; 6] /\
  outcome (search_emails_body client subject_query "INBOX" 2 envelopeOnly) =
    for_each toEmailMessage
      (map (project envelopeOnly) (firstn 2 (skipn 2 five_messages))) /\
  exists messages,
    search_emails client subject_query "INBOX" 2 envelopeOnly =
      ([EvConnect; EvMailboxOpen "INBOX"; EvSearch; EvFetch; EvLogout],
       inr {| content := [ JSON_stringify (JArr (map json_of_message messages)) ];
              isError := false |}) /\
    map em_id messages = [5; 6].
Proof.
  cbv zeta. repeat split.
  exists (summaries (firstn 2 (skipn 2 five_messages))).
  split; reflexivity.
Qed.

(** The same search on a folder whose unique-ids lie beyond its message
    count: nothing is fetched at all. *)
Example search_emails_beyond_the_folder :
  search_emails (mailbox_client match_all three_messages [])
    subject_query "INBOX" 2 envelopeOnly =
  ([EvConnect; EvMailboxOpen "INBOX"; EvSearch; EvFetch; EvLogout],
   inr {| content := [ JSON_stringify (JArr []) ]; isError := false |}).
Proof. reflexivity. Qed.

(** Where unique-ids and sequence numbers coincide the first [limit]
    messages come back in the order of the search. *)
Example search_emails_fresh_folder :
  outcome (search_emails_body (mailbox_client match_all fresh_messages [])
             subject_query "INBOX" 2 envelopeOnly) =
  inr (summaries (firstn 2 fresh_messages)).
Proof. reflexivity. Qed.

(** ** Search query schema *)

Lemma parse_shape_rejects (sh : shape) (input : JsValue) (k : string) (p : schema) :
  In (k, p) sh -> p (get k input) = None -> parse_shape sh input = None.
Proof.
  induction sh as [|[k' p'] sh IH]; cbn; intros Hin Hp.
  - contradiction.
  - destruct Hin as [[= -> ->] | Hin].
    + now rewrite Hp.
    + rewrite (IH Hin Hp). now destruct (p' (get k' input)).
Qed.

Lemma parse_shape_accepts (sh : shape) (input : JsValue) :
  Forall (fun kp => snd kp (get (fst kp) input) <> None) sh <->
  parse_shape sh input <> None.
Proof.
  induction sh as [|[k p] sh IH]; cbn.
  - split; [discriminate | constructor].
  - split.
    + intros Hall. inversion Hall as [|? ? Hp Hrest]; subst. cbn in Hp.
      apply IH in Hrest.
      destruct (p (get k input)) as [y|]; [| congruence].
      destruct (parse_shape sh input); [| congruence].
      destruct y; try discriminate. destruct (has_key k input); discriminate.
    + intros Hsome. destruct (p (get k input)) as [y|] eqn:Hp; [| congruence].
      destruct (parse_shape sh input) eqn:Hrest; [| congruence].
      constructor; cbn; [congruence |]. apply IH. discriminate.
Qed.

Lemma assoc_remove_key_same (k : string) (fs : list (string * JsValue)) :
  assoc k (remove_key k fs) = None.
Proof.
  induction fs as [|[k' v] fs IH]; cbn; [reflexivity |].
  destruct (String.eqb k k') eqn:Hk; [exact IH |]. cbn. now rewrite Hk.
Qed.

Lemma assoc_remove_key_other (k k' : string) (fs : list (string * JsValue)) :
  k <> k' -> assoc k' (remove_key k fs) = assoc k' fs.
Proof.
  intros Hne. induction fs as [|[k2 v] fs IH]; cbn; [reflexivity |].
  destruct (String.eqb k k2) eqn:Hk.
  - apply String.eqb_eq in Hk. subst k2.
    destruct (String.eqb k' k) eqn:Hk'; [| exact IH].
    apply String.eqb_eq in Hk'. congruence.
  - cbn. now rewrite IH.
Qed.

(** Dropping a key that the shape lets be [undefined] keeps an accepted
    object accepted. *)
Lemma parse_shape_drop_optional (sh : shape) (k : string)
  (fs : list (string * JsValue)) :
  Forall (fun kp => fst kp = k -> snd kp JUndefined <> None) sh ->
  parse_shape sh (JObj fs) <> None ->
  parse_shape sh (JObj (remove_key k fs)) <> None.
Proof.
  intros Hopt Hacc. apply parse_shape_accepts. apply parse_shape_accepts in Hacc.
  rewrite Forall_forall in *. intros [k' p] Hin. cbn.
  specialize (Hopt _ Hin). specialize (Hacc _ Hin). cbn in Hopt, Hacc.
  destruct (String.eqb k k') eqn:Hk.
  - apply String.eqb_eq in Hk. subst k'.
    rewrite assoc_remove_key_same. now apply Hopt.
  - apply String.eqb_neq in Hk. now rewrite assoc_remove_key_other.
Qed.

Lemma searchQuery_optional_leaves (k : string) :
  k <> "subject" ->
  Forall (fun kp => fst kp = k -> snd kp JUndefined <> None) searchQueryShape.
Proof.
  intros Hk. unfold searchQueryShape, searchQueryBase. cbn [app].
  repeat (constructor; [cbn; first [discriminate | congruence] |]).
  constructor.
Qed.

(** C3 as stated fails: the query with every field absent is rejected. *)
Lemma empty_query_rejected : searchQuerySchema (JObj []) = None.
Proof. reflexivity. Qed.

(** C3, as the code has it: [subject] is required and must be a non-empty
    string: a query is rejected when its subject is absent, and every
    accepted query carries a subject that is a string of at least one
    character. Every other field of the query is optional, so a query
    holding a non-empty subject and nothing else is accepted, and dropping
    any other field from an accepted query leaves it accepted. *)
Theorem searchQuery_optional_except_subject :
  (forall fs, assoc "subject" fs = None -> searchQuerySchema (JObj fs) = None) /\
  (forall fs,
      searchQuerySchema (JObj fs) <> None ->
      exists c s, assoc "subject" fs = Some (JStr (String c s))) /\
  (forall c s,
      searchQuerySchema (JObj [ ("subject", JStr (String c s)) ]) =
      Some (JObj [ ("subject", JStr (String c s)) ])) /\
  (forall k fs,
      k <> "subject" ->
      searchQuerySchema (JObj fs) <> None ->
      searchQuerySchema (JObj (remove_key k fs)) <> None).
Proof.
  split; [| split; [| split]].
  - intros fs Habsent. unfold searchQuerySchema, z_object.
    rewrite (parse_shape_rejects _ (JObj fs) "subject" z_string_min1);
      [reflexivity | |].
    + unfold searchQueryShape. apply in_or_app. left. unfold searchQueryBase.
      do 15 right. left. reflexivity.
    + cbn. now rewrite Habsent.
  - intros fs Hacc. unfold searchQuerySchema, z_object in Hacc.
    assert (Hparse : parse_shape searchQueryShape (JObj fs) <> None).
    { intros Hnone. apply Hacc. now rewrite Hnone. }
    apply parse_shape_accepts in Hparse. rewrite Forall_forall in Hparse.
    specialize (Hparse ("subject", z_string_min1)). cbn [fst snd] in Hparse.
    assert (Hsub : z_string_min1 (get "subject" (JObj fs)) <> None).
    { apply Hparse. unfold searchQueryShape. apply in_or_app. left.
      unfold searchQueryBase. do 15 right. now left. }
    unfold z_string_min1, get in Hsub.
    destruct (assoc "subject" fs) as [[| | | | |s| | |]|]; try congruence.
    destruct s as [|c s]; [cbn in Hsub; congruence |]. now exists c, s.
  - intros c s. reflexivity.
  - intros k fs Hk Hacc Hrej. unfold searchQuerySchema, z_object in *.
    apply (parse_shape_drop_optional searchQueryShape k fs
             (searchQuery_optional_leaves k Hk)).
    + intros Hnone. apply Hacc. now rewrite Hnone.
    + destruct (parse_shape searchQueryShape (JObj (remove_key k fs)));
        [discriminate | reflexivity].
Qed.

Lemma searchQuery_optional_except_subject_witness :
  searchQuerySchema (JObj [ ("from", JStr "alice") ]) = None /\
  (exists c s, assoc "subject" [ ("subject", JStr "hello") ] = Some (JStr (String c s))) /\
  searchQuerySchema subject_query = Some subject_query /\
  searchQuerySchema
    (JObj (remove_key "seen" [ ("seen", JBool true); ("subject", JStr "hello") ]))
  <> None.
Proof.
  destruct searchQuery_optional_except_subject as [Hreq [Hform [Honly Hdrop]]].
  split; [| split; [| split]].
  - apply Hreq. reflexivity.
  - apply Hform. vm_compute. discriminate.
  - apply (Honly "h"%char "ello").
  - apply Hdrop; [discriminate | vm_compute; discriminate].
Defined.

(** A subject that is present but empty, or no string, is rejected like an
    absent one. *)
Example searchQuery_empty_subject_rejected :
  searchQuerySchema (JObj [ ("subject", JStr "") ]) = None /\
  searchQuerySchema (JObj [ ("subject", JBool true) ]) = None.
Proof. split; reflexivity. Qed.

(** ** Configuration resolver *)

Lemma number_of_small (v : Z) : v < 2 ^ 53 -> number_of_Z v = NumInt v.
Proof.
  intros Hv. unfold number_of_Z.
  destruct (v <? 2 ^ 53) eqn:Hlt; [reflexivity |].
  apply Z.ltb_ge in Hlt. lia.
Qed.

Lemma nonempty_min1 (s : string) :
  (1 <=? String.length s)%nat = nonempty s.
Proof. destruct s; reflexivity. Qed.

Lemma startup_cases (vars : list (string * string)) :
  match env_var "EMAIL_USER" vars, env_var "EMAIL_PASSWORD" vars,
        env_var "IMAP_HOST" vars, env_var "IMAP_PORT" vars,
        env_var "SMTP_HOST" vars, env_var "SMTP_PORT" vars with
  | Some user, Some password, Some imap_host, Some imap_port,
    Some smtp_host, Some smtp_port =>
      startup vars =
      if is_email user && nonempty password && nonempty imap_host &&
         matches_digits imap_port && nonempty smtp_host && matches_digits smtp_port
      then Serving (resolved user password imap_host imap_port smtp_host smtp_port)
      else Crashed (InvalidEnvError "Environment validation failed:")
  | _, _, _, _, _, _ =>
      startup vars = Crashed (InvalidEnvError "Environment validation failed:")
  end.
Proof.
  unfold env_var, startup, parseEnv, envSchema, z_object, process_env, resolved.
  set (input := JObj _).
  cbn [parse_shape option_map].
  unfold z_string_email, z_string_min1, z_port. cbv beta.
  destruct (get "EMAIL_USER" input) as [| | | | |user| | |]; try reflexivity.
  destruct (is_email user); cbn [andb];
    destruct (get "EMAIL_PASSWORD" input) as [| | | | |password| | |];
    try reflexivity;
    rewrite ?nonempty_min1; destruct (nonempty password); cbn [andb];
    destruct (get "IMAP_HOST" input) as [| | | | |imap_host| | |];
    try reflexivity;
    rewrite ?nonempty_min1; destruct (nonempty imap_host); cbn [andb];
    destruct (get "IMAP_PORT" input) as [| | | | |imap_port| | |];
    try reflexivity;
    destruct (matches_digits imap_port); cbn [andb];
    destruct (get "SMTP_HOST" input) as [| | | | |smtp_host| | |];
    try reflexivity;
    rewrite ?nonempty_min1; destruct (nonempty smtp_host); cbn [andb];
    destruct (get "SMTP_PORT" input) as [| | | | |smtp_port| | |];
    try reflexivity;
    destruct (matches_digits smtp_port); reflexivity.
Qed.

Lemma startup_serving (vars : list (string * string)) (data : JsValue) :
  startup vars = Serving data -> parseEnv vars = inr data.
Proof.
  unfold startup. destruct (parseEnv vars); intros H; [discriminate |].
  now injection H as ->.
Qed.

Lemma startup_crashed (vars : list (string * string)) (e : Error) :
  startup vars = Crashed e -> parseEnv vars = inl e.
Proof.
  unfold startup. destruct (parseEnv vars); intros H; [| discriminate].
  now injection H as ->.
Qed.

(** C8 as stated fails on the integer part: a well-formed environment
    whose port is a long enough row of digits is accepted with the port
    [Infinity]. *)
Lemma huge_port_is_not_an_integer :
  well_formed huge_port_env = true /\
  exists data,
    parseEnv huge_port_env = inr data /\
    get "IMAP_PORT" data = JNum NumInfinity /\
    ~ is_integer (get "IMAP_PORT" data).
Proof.
  split; [vm_compute; reflexivity |].
  eexists. split; [vm_compute; reflexivity |].
  split; [reflexivity |].
  intros [z Hz]. discriminate Hz.
Qed.

(** C8, as the code has it: when the six values are present and
    well-formed the resolver accepts, the process goes on to serve, and each
    port becomes [Number] of its digits, which is the integer they denote
    whenever that is below [2^53]; in every other case [parseEnv] throws the
    error named [InvalidEnvError] with the message "Environment validation
    failed:", and the process stops before serving. *)
Theorem parseEnv_resolves (vars : list (string * string)) :
  if well_formed vars then
    exists user password imap_host imap_port smtp_host smtp_port,
      let data := resolved user password imap_host imap_port smtp_host smtp_port in
      env_var "IMAP_PORT" vars = Some imap_port /\
      env_var "SMTP_PORT" vars = Some smtp_port /\
      parseEnv vars = inr data /\
      startup vars = Serving data /\
      get "IMAP_PORT" data = JNum (Number imap_port) /\
      get "SMTP_PORT" data = JNum (Number smtp_port) /\
      (decimal_value imap_port < 2 ^ 53 ->
       get "IMAP_PORT" data = JNum (NumInt (decimal_value imap_port))) /\
      (decimal_value smtp_port < 2 ^ 53 ->
       get "SMTP_PORT" data = JNum (NumInt (decimal_value smtp_port)))
  else
    exists e,
      parseEnv vars = inl e /\
      startup vars = Crashed e /\
      err_name e = "InvalidEnvError" /\
      err_message e = "Environment validation failed:".
Proof.
  pose proof (startup_cases vars) as Hcases. unfold well_formed.
  destruct (env_var "EMAIL_USER" vars) as [user|];
    [| eexists; split; [apply startup_crashed |]; eauto].
  destruct (env_var "EMAIL_PASSWORD" vars) as [password|];
    [| eexists; split; [apply startup_crashed |]; eauto].
  destruct (env_var "IMAP_HOST" vars) as [imap_host|];
    [| eexists; split; [apply startup_crashed |]; eauto].
  destruct (env_var "IMAP_PORT" vars) as [imap_port|];
    [| eexists; split; [apply startup_crashed |]; eauto].
  destruct (env_var "SMTP_HOST" vars) as [smtp_host|];
    [| eexists; split; [apply startup_crashed |]; eauto].
  destruct (env_var "SMTP_PORT" vars) as [smtp_port|];
    [| eexists; split; [apply startup_crashed |]; eauto].
  destruct (is_email user && nonempty password && nonempty imap_host &&
            matches_digits imap_port && nonempty smtp_host &&
            matches_digits smtp_port).
  - exists user, password, imap_host, imap_port, smtp_host, smtp_port.
    cbv zeta. repeat split; try reflexivity.
    + now apply startup_serving.
    + exact Hcases.
    + intros Hsmall. cbn. unfold Number. now rewrite number_of_small.
    + intros Hsmall. cbn. unfold Number. now rewrite number_of_small.
  - eexists; split; [apply startup_crashed |]; eauto.
Qed.

Lemma parseEnv_resolves_witness :
  (exists data,
     startup sample_env = Serving data /\
     get "IMAP_PORT" data = JNum (NumInt 993) /\
     get "SMTP_PORT" data = JNum (NumInt 465)) /\
  (exists e,
     startup [ ("EMAIL_USER", "me@example.com"); ("IMAP_PORT", "99x") ] = Crashed e /\
     err_name e = "InvalidEnvError").
Proof.
  split.
  - pose proof (parseEnv_resolves sample_env) as H.
    change (well_formed sample_env) with true in H. cbv iota zeta in H.
    destruct H as [user [password [imap_host [imap_port [smtp_host [smtp_port H]]]]]].
    destruct H as [Hi [Hs [_ [Hserve [_ [_ [Himap Hsmtp]]]]]]].
    injection Hi as <-. injection Hs as <-.
    eexists. split; [exact Hserve |].
    split; [apply Himap | apply Hsmtp]; vm_compute; reflexivity.
  - pose proof (parseEnv_resolves
                  [ ("EMAIL_USER", "me@example.com"); ("IMAP_PORT", "99x") ]) as H.
    change (well_formed [ ("EMAIL_USER", "me@example.com"); ("IMAP_PORT", "99x") ])
      with false in H. cbv iota in H.
    destruct H as [e [_ [Hcrash [Hname _]]]].
    exists e. split; assumption.
Defined.

(** * Further properties of the handlers *)

(** ** Outcomes of the tools *)

(** X1: [send_email] never throws and calls the transporter exactly once, with
    the configured account as sender; the result is flagged exactly when the
    transporter failed, and otherwise carries the message id the
    transporter returned. *)
Theorem send_email_always_returns
  (emailUser : string) (tr : Transporter)
  (to subject text_ : string) (html : option string) :
  exists r,
    outcome (send_email emailUser tr to subject text_ html) = inr r /\
    filter is_work (trace (send_email emailUser tr to subject text_ html)) =
      [ EvSendMail ] /\
    match sendMail tr (mkMailOptions emailUser to subject text_ html) with
    | inr info =>
        r = {| content :=
                 [ JSON_stringify
                     (JObj [ ("messageId", JStr (messageId info));
                             ("status", JStr "Email sent successfully") ]) ];
               isError := false |}
    | inl e => isError r = true
    end.
Proof.
  unfold send_email, outcome, trace, try_catch, bind, call, ret, console_error.
  destruct (sendMail tr (mkMailOptions emailUser to subject text_ html));
    cbn; eexists; repeat split.
Qed.

Lemma finally_outcome_released {A : Type} (m : M A) (client : ImapFlow) :
  logout client = inr tt ->
  outcome (try_finally m (call EvLogout (logout client))) = outcome m.
Proof.
  intros Hl. unfold try_finally, call, outcome. rewrite Hl.
  destruct m as [t r]. reflexivity.
Qed.

Lemma finally_outcome_stuck {A : Type} (m : M A) (client : ImapFlow) (e : Error) :
  logout client = inl e ->
  outcome (try_finally m (call EvLogout (logout client))) = inl e.
Proof.
  intros Hl. unfold try_finally, call, outcome. rewrite Hl.
  destruct m as [t r]. reflexivity.
Qed.

Lemma catch_returns {A : Type} (m : M A) (h : Error -> M A) :
  (forall e, exists a, outcome (h e) = inr a) ->
  exists a, outcome (try_catch m h) = inr a.
Proof.
  intros Hh. unfold try_catch, outcome. destruct m as [t [e|a]].
  - destruct (Hh e) as [a Ha]. unfold outcome in Ha.
    destruct (h e) as [t' r]. cbn in *. now exists a.
  - now exists a.
Qed.

Lemma lift_outcome {A : Type} (f : A -> Result) (m : M A) :
  outcome (lift f m) =
  match outcome m with inl e => inl e | inr a => inr (f a) end.
Proof. reflexivity. Qed.

(** X2: Whenever the release succeeds, [search_emails] and [list_folders]
    return a result: no failure of connect, open, search, fetch or list is
    thrown to the host. *)
Theorem mailbox_tools_return
  (emailUser : string) (tr : Transporter) (op : Operation) (client : ImapFlow) :
  is_mailbox_tool op = true ->
  logout client = inr tt ->
  exists r, outcome (invoke emailUser tr op client) = inr (OfTool r).
Proof.
  intros Hop Hl. destruct op; try discriminate Hop; cbn [invoke];
    rewrite lift_outcome.
  - unfold search_emails. rewrite finally_outcome_released by exact Hl.
    match goal with
    | |- context [outcome (try_catch ?m ?h)] =>
        destruct (catch_returns m h) as [r Hr]
    end.
    + intros e. eexists. reflexivity.
    + rewrite Hr. now exists r.
  - unfold list_folders. rewrite finally_outcome_released by exact Hl.
    match goal with
    | |- context [outcome (try_catch ?m ?h)] =>
        destruct (catch_returns m h) as [r Hr]
    end.
    + intros e. eexists. reflexivity.
    + rewrite Hr. now exists r.
Qed.

Lemma mailbox_tools_return_witness :
  exists r,
    outcome (invoke "me@example.com" ok_transporter ListFolders
               (refusing_client timeout_error)) = inr (OfTool r).
Proof.
  apply (mailbox_tools_return "me@example.com" ok_transporter ListFolders
           (refusing_client timeout_error)); reflexivity.
Defined.

(** X3: When [client.logout()] itself throws, every mailbox operation throws
    that error: a result already built, or the error already caught, is
    lost. *)
Theorem release_failure_overrides
  (emailUser : string) (tr : Transporter) (op : Operation)
  (client : ImapFlow) (e : Error) :
  uses_mailbox op = true ->
  logout client = inl e ->
  outcome (invoke emailUser tr op client) = inl e.
Proof.
  intros Hop Hl. destruct op; try discriminate Hop; cbn [invoke];
    rewrite lift_outcome;
    unfold search_emails, list_folders, inbox_resource, folders_resource;
    now rewrite (finally_outcome_stuck _ client e Hl).
Qed.

Lemma release_failure_overrides_witness :
  outcome (invoke "me@example.com" ok_transporter ListFolders
             (stuck_logout_client timeout_error)) = inl timeout_error /\
  outcome (invoke "me@example.com" ok_transporter InboxResource
             (stuck_logout_client timeout_error)) = inl timeout_error.
Proof.
  split.
  - apply (release_failure_overrides "me@example.com" ok_transporter ListFolders
             (stuck_logout_client timeout_error) timeout_error); reflexivity.
  - apply (release_failure_overrides "me@example.com" ok_transporter InboxResource
             (stuck_logout_client timeout_error) timeout_error); reflexivity.
Defined.

(** X4: A transport failure inside [search_emails] or [list_folders] comes back
    as a flagged result whose text is the tool's label followed by the
    failure's message, provided the release succeeds. *)
Theorem mailbox_tools_flag_failures
  (emailUser : string) (tr : Transporter) (op : Operation)
  (client : ImapFlow) (e : Error) :
  tool_fails op client e ->
  logout client = inr tt ->
  outcome (invoke emailUser tr op client) =
    inr (OfTool {| content := [ Str (error_label op ++ err_message e)%string ];
                   isError := true |}).
Proof.
  intros Hfail Hl. destruct op; cbn in Hfail; try contradiction;
    cbn [invoke]; rewrite lift_outcome;
    unfold search_emails, list_folders;
    rewrite finally_outcome_released by exact Hl;
    unfold search_emails_body, outcome, try_catch, bind, call, for_await, ret,
      console_error.
  - destruct Hfail
      as [Hc | [[Hc Ho] | [[Hc [Ho Hs]] | [uids [Hc [Ho [Hs [Hne [[pushed Hp] Hf]]]]]]]]];
      rewrite ?Hc, ?Ho, ?Hs; cbn; try reflexivity.
    destruct (slice0 uids limit) as [|uid1 rest]; [congruence |].
    cbn. rewrite Hp, Hf. reflexivity.
  - destruct Hfail as [Hc | [Hc Hlist]]; rewrite ?Hc, ?Hlist; reflexivity.
Qed.

Lemma mailbox_tools_flag_failures_witness :
  outcome (invoke "me@example.com" ok_transporter
             (SearchEmails subject_query "INBOX" 10 envelopeOnly)
             (refusing_client timeout_error)) =
    inr (OfTool {| content := [ Str "Error searching emails: connect ETIMEDOUT" ];
                   isError := true |}).
Proof.
  apply (mailbox_tools_flag_failures "me@example.com" ok_transporter
           (SearchEmails subject_query "INBOX" 10 envelopeOnly)
           (refusing_client timeout_error) timeout_error).
  - right. left. split; reflexivity.
  - reflexivity.
Defined.

(** X5: When the search matches nothing, [search_emails] does not call
    [client.fetch] at all and answers the empty array. *)
Theorem search_emails_nothing_found (client : ImapFlow)
  (query : JsValue) (folder : string) (limit : Z) (fetchOptions : JsValue) :
  connect client = inr tt ->
  mailboxOpen client folder = inr tt ->
  search client query true = inr [] ->
  logout client = inr tt ->
  search_emails client query folder limit fetchOptions =
    ([ EvConnect; EvMailboxOpen folder; EvSearch; EvLogout ],
     inr {| content := [ JSON_stringify (JArr []) ]; isError := false |}).
Proof.
  intros Hc Ho Hs Hl.
  unfold search_emails, search_emails_body, try_finally, try_catch, bind, call, ret.
  rewrite Hc, Ho, Hs, Hl. cbn.
  replace (slice0 (@nil Z) limit) with (@nil Z); [reflexivity |].
  unfold slice0. now rewrite firstn_nil.
Qed.

Lemma search_emails_nothing_found_witness :
  search_emails (mailbox_client (fun _ _ => false) three_messages [])
    subject_query "INBOX" 10 envelopeOnly =
    ([ EvConnect; EvMailboxOpen "INBOX"; EvSearch; EvLogout ],
     inr {| content := [ JSON_stringify (JArr []) ]; isError := false |}).
Proof.
  apply (search_emails_nothing_found
           (mailbox_client (fun _ _ => false) three_messages [])
           subject_query "INBOX" 10 envelopeOnly); reflexivity.
Defined.

(** ** Order of the collaborator calls *)

Ltac settle := split; [reflexivity | cbn; lia].

(** X6: Every handler makes its collaborator calls in the order of its source
    text and stops at the first one that fails: the calls made before the
    release are exactly the handler's script up to and including the first
    call that fails, and the whole script when none does; at most one error
    is logged. *)
Theorem calls_follow_script
  (emailUser : string) (tr : Transporter) (op : Operation) (client : ImapFlow) :
  filter is_work (trace (invoke emailUser tr op client)) =
    until_failure (call_succeeds op client) (script op client) /\
  (List.length (filter is_console_error (trace (invoke emailUser tr op client)))
   <= 1)%nat.
Proof.
  destruct op; cbn [invoke lift trace fst script call_succeeds].
  - unfold send_email, try_catch, bind, call, ret, console_error.
    destruct (sendMail tr _); cbn; settle.
  - unfold search_emails, search_emails_body, try_finally, try_catch, bind,
      call, for_await, ret, console_error, call_succeeds.
    destruct (connect client); cbn;
      [destruct (logout client); cbn; settle |].
    destruct (mailboxOpen client folder); cbn;
      [destruct (logout client); cbn; settle |].
    destruct (search client query true) as [e|uids]; cbn;
      [destruct (logout client); cbn; settle |].
    destruct (slice0 uids limit) as [|uid1 rest]; cbn;
      [destruct (logout client); cbn; settle |].
    destruct (for_each toEmailMessage
                (fst (fetch client (Ids (uid1 :: rest)) fetchOptions false)));
      cbn; [destruct (logout client); cbn; settle |].
    destruct (snd (fetch client (Ids (uid1 :: rest)) fetchOptions false)); cbn;
      destruct (logout client); cbn; settle.
  - unfold list_folders, try_finally, try_catch, bind, call, ret, console_error,
      call_succeeds.
    destruct (connect client); cbn;
      [destruct (logout client); cbn; settle |].
    destruct (list_ client); cbn; destruct (logout client); cbn; settle.
  - unfold inbox_resource, try_finally, try_catch, bind, call, for_await, ret,
      throw, console_error, call_succeeds.
    destruct (connect client); cbn;
      [destruct (logout client); cbn; settle |].
    destruct (mailboxOpen client "INBOX"); cbn;
      [destruct (logout client); cbn; settle |].
    destruct (for_each toEmailMessage
                (fst (fetch client AllMessages envelopeOnly false)));
      cbn; [destruct (logout client); cbn; settle |].
    destruct (snd (fetch client AllMessages envelopeOnly false)); cbn;
      destruct (logout client); cbn; settle.
  - unfold folders_resource, try_finally, try_catch, bind, call, ret, throw,
      console_error, call_succeeds.
    destruct (connect client); cbn;
      [destruct (logout client); cbn; settle |].
    destruct (list_ client); cbn; destruct (logout client); cbn; settle.
Qed.

(** ** [search_emails] on a folder whose unique-ids are its sequence numbers *)

Lemma subseq_in {A : Type} (s l : list A) (a : A) :
  subseq s l -> In a s -> In a l.
Proof.
  induction 1 as [l | x s l Hs IH | x s l Hs IH]; cbn; intros Ha.
  - contradiction.
  - destruct Ha as [-> | Ha]; [now left | right; now apply IH].
  - right. now apply IH.
Qed.

Lemma subseq_firstn_filter {A : Type} (P : A -> bool) (l : list A) (n : nat) :
  subseq (firstn n (filter P l)) l.
Proof.
  revert n. induction l as [|x l IH]; intros n; cbn.
  - rewrite firstn_nil. constructor.
  - destruct (P x).
    + destruct n as [|n]; cbn; [constructor | constructor; apply IH].
    + constructor. apply IH.
Qed.

Lemma existsb_eqb_in (z : Z) (l : list Z) :
  existsb (Z.eqb z) l = true <-> In z l.
Proof.
  rewrite existsb_exists. split.
  - intros [y [Hy Heq]]. apply Z.eqb_eq in Heq. now subst.
  - intros Hin. exists z. split; [exact Hin | apply Z.eqb_refl].
Qed.

(** Picking from [l] the elements whose key is among the keys of a
    subsequence gives back the subsequence, when keys are not repeated. *)
Lemma filter_by_keys {A : Type} (f : A -> Z) (s l : list A) :
  subseq s l -> NoDup (map f l) ->
  filter (fun m => existsb (Z.eqb (f m)) (map f s)) l = s.
Proof.
  induction 1 as [l | x s l Hs IH | x s l Hs IH]; intros Hnd.
  - induction l as [|y l IHl]; cbn; [reflexivity |].
    apply IHl. cbn in Hnd. now inversion Hnd.
  - cbn in *. inversion Hnd as [|? ? Hnot Hnd']; subst.
    rewrite Z.eqb_refl. cbn. f_equal.
    transitivity (filter (fun m => existsb (Z.eqb (f m)) (map f s)) l);
      [| now apply IH].
    apply filter_ext_in. intros m Hm.
    destruct (f m =? f x) eqn:Heq; [| reflexivity].
    apply Z.eqb_eq in Heq. exfalso. apply Hnot. rewrite <- Heq. now apply in_map.
  - cbn in *. inversion Hnd as [|? ? Hnot Hnd']; subst.
    destruct (existsb (Z.eqb (f x)) (map f s)) eqn:Hex; [| now apply IH].
    exfalso. apply existsb_eqb_in in Hex. apply in_map_iff in Hex.
    destruct Hex as [y [Hy Hin]]. apply Hnot. rewrite <- Hy.
    apply in_map. now apply (subseq_in s l).
Qed.

Lemma for_each_with_headers (fetchOptions : JsValue) (l : list FetchMessageObject) :
  asks_for "envelope" fetchOptions = true ->
  Forall (fun m => has_headers m = true) l ->
  exists messages,
    for_each toEmailMessage (map (project fetchOptions) l) = inr messages /\
    map em_id messages = map fm_uid l.
Proof.
  intros Hasks Hall. induction Hall as [|m l Hm _ [messages [Hrest Hids]]].
  - exists []. split; reflexivity.
  - cbn [map for_each]. unfold toEmailMessage at 1, project at 1.
    cbn [fm_envelope fm_uid]. rewrite Hasks. unfold has_headers in Hm.
    destruct (fm_envelope m) as [envelope|]; [| discriminate].
    destruct (env_from envelope) as [from|]; [| discriminate].
    destruct (env_to envelope) as [to|]; [| discriminate].
    rewrite Hrest. eexists. split; [reflexivity |]. cbn. now rewrite Hids.
Qed.

Lemma for_each_without_envelope (fetchOptions : JsValue)
  (m : FetchMessageObject) (l : list FetchMessageObject) :
  asks_for "envelope" fetchOptions = false ->
  for_each toEmailMessage (map (project fetchOptions) (m :: l)) =
    inl (cannot_read "subject").
Proof.
  intros Hasks. cbn [map for_each]. unfold toEmailMessage at 1, project at 1.
  cbn [fm_envelope]. now rewrite Hasks.
Qed.

(** X7: On a folder where every message's sequence number is its unique-id,
    [search_emails] with a positive limit runs its loop over exactly the
    first [limit] matching messages (all of them when fewer match), in
    mailbox order, as the fetch yields them under the given options. When
    the options ask for the envelope and every message has its from and to
    lists, it collects one summary per message, ids in that order; when the
    options do not ask for the envelope and something matched, the loop
    throws the TypeError of reading [subject] on the first message. *)
Theorem search_emails_first_matches
  (matches : JsValue -> FetchMessageObject -> bool)
  (stored : list FetchMessageObject) (folders : list ListResponse)
  (query : JsValue) (folder : string) (limit : Z) (fetchOptions : JsValue) :
  Forall (fun m => fm_seq m = fm_uid m) stored ->
  NoDup (map fm_uid stored) ->
  0 < limit ->
  let kept := firstn (Z.to_nat limit) (filter (matches query) stored) in
  let body := search_emails_body (mailbox_client matches stored folders)
                query folder limit fetchOptions in
  outcome body = for_each toEmailMessage (map (project fetchOptions) kept) /\
  (asks_for "envelope" fetchOptions = true ->
   Forall (fun m => has_headers m = true) stored ->
   exists messages,
     outcome body = inr messages /\ map em_id messages = map fm_uid kept) /\
  (asks_for "envelope" fetchOptions = false ->
   kept <> [] ->
   outcome body = inl (cannot_read "subject")).
Proof.
  intros Hsame Hnd Hlimit kept body.
  assert (Hbody : outcome body =
                  for_each toEmailMessage (map (project fetchOptions) kept)).
  { subst body kept.
    set (client := mailbox_client matches stored folders).
    set (found := filter (matches query) stored).
    assert (Hsearch : search client query true = inr (map fm_uid found))
      by reflexivity.
    destruct found as [|m1 more] eqn:Hfound.
    - unfold search_emails_body, outcome, bind, call, ret.
      rewrite Hsearch. cbn [connect mailboxOpen client mailbox_client map snd].
      replace (slice0 (@nil Z) limit) with (@nil Z)
        by (unfold slice0; now rewrite firstn_nil).
      rewrite firstn_nil. reflexivity.
    - destruct (search_emails_body_fetch client query folder limit fetchOptions
                  (map fm_uid (m1 :: more)) eq_refl eq_refl Hsearch Hlimit)
        as [_ Hout]; [discriminate |].
      rewrite Hout. rewrite firstn_map. rewrite <- Hfound.
      set (kept := firstn (Z.to_nat limit) found).
      change (fetch client (Ids (map fm_uid kept)) fetchOptions false)
        with (map (project fetchOptions)
                (filter (fun m => existsb (Z.eqb (fm_seq m)) (map fm_uid kept))
                        stored),
              @None Error).
      cbn [snd fst].
      rewrite (filter_ext_in
                 (fun m => existsb (Z.eqb (fm_seq m)) (map fm_uid kept))
                 (fun m => existsb (Z.eqb (fm_uid m)) (map fm_uid kept))).
      + rewrite (filter_by_keys fm_uid kept stored);
          [| apply subseq_firstn_filter | exact Hnd].
        destruct (for_each toEmailMessage (map (project fetchOptions) kept));
          reflexivity.
      + intros m Hm. rewrite Forall_forall in Hsame. now rewrite (Hsame m Hm). }
  split; [exact Hbody |]. split.
  - intros Hasks Hheaders. rewrite Hbody.
    apply for_each_with_headers; [exact Hasks |].
    rewrite Forall_forall in *. intros m Hm. apply Hheaders.
    apply (subseq_in kept stored); [apply subseq_firstn_filter | exact Hm].
  - intros Hasks Hkept. rewrite Hbody.
    destruct kept as [|m l]; [congruence |].
    now apply for_each_without_envelope.
Qed.

Lemma search_emails_first_matches_witness :
  (exists messages,
     outcome (search_emails_body (mailbox_client match_all fresh_messages [])
                subject_query "INBOX" 2 envelopeOnly) = inr messages /\
     map em_id messages = [1; 2]) /\
  outcome (search_emails_body (mailbox_client match_all fresh_messages [])
             subject_query "INBOX" 2 (JObj [])) = inl (cannot_read "subject").
Proof.
  assert (Hsame : Forall (fun m => fm_seq m = fm_uid m) fresh_messages)
    by (repeat constructor).
  assert (Hnd : NoDup (map fm_uid fresh_messages)).
  { repeat (constructor; [cbn; intuition discriminate |]). constructor. }
  split.
  - destruct (search_emails_first_matches match_all fresh_messages []
                subject_query "INBOX" 2 envelopeOnly Hsame Hnd eq_refl)
      as [_ [Hgood _]].
    apply Hgood; [reflexivity | repeat constructor].
  - destruct (search_emails_first_matches match_all fresh_messages []
                subject_query "INBOX" 2 (JObj []) Hsame Hnd eq_refl)
      as [_ [_ Hbad]].
    apply Hbad; [reflexivity | discriminate].
Defined.

(** * Further properties of the request schemas *)

Lemma parse_shape_keys (sh : shape) (input : JsValue)
  (fs : list (string * JsValue)) (k : string) (v : JsValue) :
  parse_shape sh input = Some fs -> assoc k fs = Some v -> In k (map fst sh).
Proof.
  revert fs. induction sh as [|[k0 p0] sh IH]; cbn; intros fs Hparse Hk.
  - injection Hparse as <-. discriminate Hk.
  - destruct (p0 (get k0 input)) as [y0|]; [| discriminate].
    destruct (parse_shape sh input) as [ys|]; [| discriminate].
    assert (Hcases : fs = (k0, y0) :: ys \/ fs = ys).
    { destruct y0; try (left; congruence).
      destruct (has_key k0 input); [left | right]; congruence. }
    destruct Hcases as [-> | ->].
    + cbn in Hk. destruct (String.eqb k k0) eqn:Heq.
      * apply String.eqb_eq in Heq. now left.
      * right. now apply (IH ys).
    + right. now apply (IH ys).
Qed.

Lemma parse_shape_lookup (sh : shape) (input : JsValue)
  (fs : list (string * JsValue)) (k : string) (p : schema) :
  parse_shape sh input = Some fs ->
  NoDup (map fst sh) ->
  In (k, p) sh ->
  exists y, p (get k input) = Some y /\ get k (JObj fs) = y.
Proof.
  revert fs. induction sh as [|[k0 p0] sh IH]; cbn; intros fs Hparse Hnd Hin.
  - contradiction.
  - inversion Hnd as [|? ? Hfresh Hnd']; subst.
    destruct (p0 (get k0 input)) as [y0|] eqn:Hp0; [| discriminate].
    destruct (parse_shape sh input) as [ys|] eqn:Hrest; [| discriminate].
    assert (Hcases : fs = (k0, y0) :: ys \/ (y0 = JUndefined /\ fs = ys)).
    { destruct y0; try (left; congruence).
      destruct (has_key k0 input); [left; congruence | right; split; congruence]. }
    destruct Hin as [[= -> ->] | Hin].
    + exists y0. split; [exact Hp0 |].
      destruct Hcases as [-> | [-> ->]]; cbn.
      * now rewrite String.eqb_refl.
      * destruct (assoc k ys) as [v|] eqn:Hk; [| reflexivity].
        exfalso. apply Hfresh. now apply (parse_shape_keys sh input ys k v).
    + destruct (IH ys eq_refl Hnd' Hin) as [y [Hy Hget]].
      exists y. split; [exact Hy |].
      destruct Hcases as [-> | [_ ->]]; [| exact Hget].
      cbn in *. destruct (String.eqb k k0) eqn:Heq; [| exact Hget].
      apply String.eqb_eq in Heq. subst k0. exfalso. apply Hfresh.
      apply in_map_iff. now exists (k, p).
Qed.

Lemma parse_items_each (p : schema) (l ys : list JsValue) :
  parse_items p l = Some ys -> Forall2 (fun x y => p x = Some y) l ys.
Proof.
  revert ys. induction l as [|x l IH]; cbn; intros ys H.
  - injection H as <-. constructor.
  - destruct (p x) as [y|] eqn:Hp; [| discriminate].
    destruct (parse_items p l) as [ys'|]; [| discriminate].
    injection H as <-. constructor; [exact Hp | now apply IH].
Qed.

Lemma z_object_accepts (sh : shape) (v : JsValue) :
  z_object sh v <> None ->
  exists fs, v = JObj fs /\ parse_shape sh v <> None.
Proof.
  unfold z_object. destruct v; try congruence. intros H.
  eexists. split; [reflexivity |].
  intros Hnone. apply H. now rewrite Hnone.
Qed.

Lemma fetchOptions_optional_leaves (k : string) :
  Forall (fun kp => fst kp = k -> snd kp JUndefined <> None) fetchOptionsShape.
Proof.
  unfold fetchOptionsShape.
  repeat (constructor; [cbn; discriminate |]). constructor.
Qed.

(** X8: Every field of the fetch options is optional: the empty object is
    accepted, and dropping any field from accepted options leaves them
    accepted. *)
Theorem fetchOptions_all_optional (k : string) (fs : list (string * JsValue)) :
  fetchOptionsSchema (JObj fs) <> None ->
  fetchOptionsSchema (JObj (remove_key k fs)) <> None /\
  fetchOptionsSchema (JObj []) = Some (JObj []).
Proof.
  intros Hacc. split; [| reflexivity].
  unfold fetchOptionsSchema, z_object in *. intros Hrej.
  apply (parse_shape_drop_optional fetchOptionsShape k fs
           (fetchOptions_optional_leaves k)).
  - intros Hnone. apply Hacc. now rewrite Hnone.
  - destruct (parse_shape fetchOptionsShape (JObj (remove_key k fs)));
      [discriminate | reflexivity].
Qed.

Lemma fetchOptions_all_optional_witness :
  fetchOptionsSchema
    (JObj (remove_key "source" [ ("envelope", JBool true); ("source", JBool true) ]))
  <> None.
Proof.
  apply (fetchOptions_all_optional "source"
           [ ("envelope", JBool true); ("source", JBool true) ]).
  vm_compute. discriminate.
Defined.

(** X9: Every alternative under [or] is held to the same rule as the query
    itself: a query is accepted only if each element of its [or] array is an
    object with a non-empty [subject]. *)
Theorem searchQuery_or_needs_subjects (q : JsValue) (items : list JsValue) :
  searchQuerySchema q <> None ->
  get "or" q = JArr items ->
  Forall (fun item => exists c s, get "subject" item = JStr (String c s)) items.
Proof.
  intros Hacc Hor. unfold searchQuerySchema in Hacc.
  destruct (z_object_accepts _ _ Hacc) as [fs [-> Hparse]].
  apply parse_shape_accepts in Hparse. rewrite Forall_forall in Hparse.
  specialize (Hparse ("or", z_optional (z_array (z_object searchQueryBase)))).
  cbn [fst snd] in Hparse. rewrite Hor in Hparse.
  assert (Hitems : parse_items (z_object searchQueryBase) items <> None).
  { intros Hnone. apply Hparse.
    - unfold searchQueryShape. apply in_or_app. right. now left.
    - cbn. now rewrite Hnone. }
  clear Hparse Hor Hacc. induction items as [|item items IH]; [constructor |].
  cbn in Hitems.
  destruct (z_object searchQueryBase item) as [y|] eqn:Hitem; [| congruence].
  destruct (parse_items (z_object searchQueryBase) items); [| congruence].
  constructor; [| apply IH; discriminate].
  assert (Hok : z_object searchQueryBase item <> None) by congruence.
  destruct (z_object_accepts _ _ Hok) as [ifs [-> Hiparse]].
  apply parse_shape_accepts in Hiparse. rewrite Forall_forall in Hiparse.
  specialize (Hiparse ("subject", z_string_min1)). cbn [fst snd] in Hiparse.
  assert (Hsub : z_string_min1 (get "subject" (JObj ifs)) <> None).
  { apply Hiparse. unfold searchQueryBase. do 15 right. now left. }
  unfold z_string_min1 in Hsub.
  destruct (get "subject" (JObj ifs)) as [| | | | |s| | |]; try congruence.
  destruct s as [|c s]; [cbn in Hsub; congruence |]. now exists c, s.
Qed.

Lemma searchQuery_or_needs_subjects_witness :
  Forall (fun item => exists c s, get "subject" item = JStr (String c s))
    [ JObj [ ("subject", JStr "a") ];
      JObj [ ("subject", JStr "b"); ("seen", JBool false) ] ].
Proof.
  apply (searchQuery_or_needs_subjects either_subject).
  - vm_compute. discriminate.
  - reflexivity.
Defined.

Lemma searchQueryShape_keys_distinct : NoDup (map fst searchQueryShape).
Proof.
  unfold searchQueryShape, searchQueryBase. cbn [map fst app].
  repeat (constructor; [cbn; intuition discriminate |]). constructor.
Qed.

Lemma z_object_output (sh : shape) (v out : JsValue) :
  z_object sh v = Some out ->
  exists fs, out = JObj fs /\ parse_shape sh v = Some fs.
Proof.
  unfold z_object. destruct v; try discriminate.
  destruct (parse_shape sh (JObj fields)) as [fs|]; [| discriminate].
  cbn. intros [= <-]. now exists fs.
Qed.

(** X10: What an accepted query looks like after parsing: it has no key
    outside the schema, and the alternatives under [or] have lost any
    [or] of their own, so the disjunction is one level deep. *)
Theorem searchQuery_output_shape (q out : JsValue) :
  searchQuerySchema q = Some out ->
  (forall k, has_key k out = true -> In k (map fst searchQueryShape)) /\
  (forall items, get "or" out = JArr items ->
                 Forall (fun item => has_key "or" item = false) items).
Proof.
  intros Hparse. unfold searchQuerySchema in Hparse.
  destruct (z_object_output _ _ _ Hparse) as [fs [-> Hfs]]. split.
  - intros k Hk. cbn in Hk. destruct (assoc k fs) as [v|] eqn:Hv; [| discriminate].
    now apply (parse_shape_keys searchQueryShape q fs k v).
  - intros items Hor.
    destruct (parse_shape_lookup searchQueryShape q fs "or"
                (z_optional (z_array (z_object searchQueryBase))) Hfs
                searchQueryShape_keys_distinct) as [y [Hy Hget]].
    { unfold searchQueryShape. apply in_or_app. right. now left. }
    rewrite Hor in Hget. subst y. unfold z_optional, z_array in Hy.
    destruct (get "or" q) as [| | | | | | |given|]; try discriminate.
    destruct (parse_items (z_object searchQueryBase) given) as [parsed|] eqn:Hitems;
      [| discriminate].
    cbn in Hy. injection Hy as ->.
    apply parse_items_each in Hitems.
    clear Hor Hfs Hparse. induction Hitems as [|x y given items Hxy _ IH];
      constructor; [| exact IH].
    destruct (z_object_output _ _ _ Hxy) as [ifs [-> Hifs]].
    cbn. destruct (assoc "or" ifs) as [v|] eqn:Hv; [| reflexivity].
    exfalso.
    pose proof (parse_shape_keys searchQueryBase x ifs "or" v Hifs Hv) as Hin.
    unfold searchQueryBase in Hin. cbn in Hin. intuition discriminate.
Qed.

Lemma searchQuery_output_shape_witness :
  searchQuerySchema nested_query = Some nested_query_parsed /\
  (forall k, has_key k nested_query_parsed = true ->
             In k (map fst searchQueryShape)) /\
  Forall (fun item => has_key "or" item = false)
    [ JObj [ ("subject", JStr "y") ] ].
Proof.
  split; [reflexivity |].
  destruct (searchQuery_output_shape nested_query nested_query_parsed eq_refl)
    as [Hkeys Hor].
  split; [exact Hkeys | apply Hor; reflexivity].
Defined.

(** X11: Arguments of [search_emails] that pass its shape: the limit handed to
    the handler is a positive integer, 10 when none was given, so the
    handler's slice keeps at most that many ids; the folder is a string,
    "INBOX" when none was given; query and fetch options are the outputs of
    their schemas. *)
Theorem searchEmails_arguments (args out : JsValue) :
  z_object searchEmailsShape args = Some out ->
  (exists n, get "limit" out = JNum (NumInt n) /\ 0 < n /\
             (get "limit" args = JUndefined -> n = 10) /\
             forall uids : list Z,
               List.length (slice0 uids n) =
               Nat.min (Z.to_nat n) (List.length uids)) /\
  (exists f, get "folder" out = JStr f /\
             (get "folder" args = JUndefined -> f = "INBOX")) /\
  searchQuerySchema (get "query" args) = Some (get "query" out) /\
  fetchOptionsSchema (get "fetchOptions" args) = Some (get "fetchOptions" out).
Proof.
  intros Hparse. destruct (z_object_output _ _ _ Hparse) as [fs [-> Hfs]].
  assert (Hnd : NoDup (map fst searchEmailsShape)).
  { unfold searchEmailsShape. cbn [map fst].
    repeat (constructor; [cbn; intuition discriminate |]). constructor. }
  pose proof (fun k p => parse_shape_lookup searchEmailsShape args fs k p Hfs Hnd)
    as Hlookup.
  repeat split.
  - destruct (Hlookup "limit" (z_default (JNum (NumInt 10)) z_number_int_positive))
      as [y [Hy Hget]]; [unfold searchEmailsShape; do 3 right; now left |].
    rewrite Hget. unfold z_default, z_number_int_positive in Hy.
    destruct (get "limit" args) as [| | |[z| |]| | | | |]; try discriminate.
    + injection Hy as <-. exists 10. repeat split; try lia.
      intros uids. apply slice0_length. lia.
    + destruct (0 <? z) eqn:Hpos; [| discriminate]. injection Hy as <-.
      apply Z.ltb_lt in Hpos. exists z. repeat split; try lia; try discriminate.
      intros uids. apply slice0_length. lia.
  - destruct (Hlookup "folder" (z_default (JStr "INBOX") z_string))
      as [y [Hy Hget]]; [unfold searchEmailsShape; do 2 right; now left |].
    rewrite Hget. unfold z_default, z_string in Hy.
    destruct (get "folder" args) as [| | | | |f| | |]; try discriminate.
    + injection Hy as <-. exists "INBOX". split; reflexivity.
    + injection Hy as <-. exists f. split; [reflexivity | discriminate].
  - destruct (Hlookup "query" searchQuerySchema) as [y [Hy Hget]];
      [unfold searchEmailsShape; now left |].
    now rewrite Hget.
  - destruct (Hlookup "fetchOptions" fetchOptionsSchema) as [y [Hy Hget]];
      [unfold searchEmailsShape; right; now left |].
    now rewrite Hget.
Qed.

Lemma searchEmails_arguments_witness :
  exists n, get "limit" bare_arguments_parsed = JNum (NumInt n) /\ n = 10.
Proof.
  destruct (searchEmails_arguments bare_arguments bare_arguments_parsed eq_refl)
    as [[n [Hn [_ [Hdefault _]]]] _].
  exists n. split; [exact Hn | apply Hdefault; reflexivity].
Defined.

(** X12: Arguments of [send_email] that pass its shape: the recipient is an
    e-mail address, subject and text are non-empty strings, and the html
    part is a string or absent. *)
Theorem sendEmail_arguments (args out : JsValue) :
  z_object sendEmailShape args = Some out ->
  (exists to, get "to" out = JStr to /\ is_email to = true) /\
  (exists c s, get "subject" out = JStr (String c s)) /\
  (exists c s, get "text" out = JStr (String c s)) /\
  (get "html" out = JUndefined \/ exists h, get "html" out = JStr h).
Proof.
  intros Hparse. destruct (z_object_output _ _ _ Hparse) as [fs [-> Hfs]].
  assert (Hnd : NoDup (map fst sendEmailShape)).
  { unfold sendEmailShape. cbn [map fst].
    repeat (constructor; [cbn; intuition discriminate |]). constructor. }
  pose proof (fun k p => parse_shape_lookup sendEmailShape args fs k p Hfs Hnd)
    as Hlookup.
  repeat split.
  - destruct (Hlookup "to" z_string_email) as [y [Hy Hget]];
      [unfold sendEmailShape; now left |].
    rewrite Hget. unfold z_string_email in Hy.
    destruct (get "to" args) as [| | | | |to| | |]; try discriminate.
    destruct (is_email to) eqn:Hmail; [| discriminate].
    injection Hy as <-. now exists to.
  - destruct (Hlookup "subject" z_string_min1) as [y [Hy Hget]];
      [unfold sendEmailShape; right; now left |].
    rewrite Hget. unfold z_string_min1 in Hy.
    destruct (get "subject" args) as [| | | | |[|c s]| | |]; try discriminate.
    injection Hy as <-. now exists c, s.
  - destruct (Hlookup "text" z_string_min1) as [y [Hy Hget]];
      [unfold sendEmailShape; do 2 right; now left |].
    rewrite Hget. unfold z_string_min1 in Hy.
    destruct (get "text" args) as [| | | | |[|c s]| | |]; try discriminate.
    injection Hy as <-. now exists c, s.
  - destruct (Hlookup "html" (z_optional z_string)) as [y [Hy Hget]];
      [unfold sendEmailShape; do 3 right; now left |].
    rewrite Hget. unfold z_optional, z_string in Hy.
    destruct (get "html" args) as [| | | | |h| | |]; try discriminate;
      injection Hy as <-; [now left | right; now exists h].
Qed.

Lemma sendEmail_arguments_witness :
  exists to, get "to" mail_arguments = JStr to /\ is_email to = true.
Proof.
  destruct (sendEmail_arguments mail_arguments mail_arguments eq_refl)
    as [Hto _].
  exact Hto.
Defined.

(** * Further properties of the inbox resource *)

Lemma dated_sort_insert (d : Z) (x : EmailMessage) (l : list EmailMessage) :
  dated d (sort_insert newest_first x l) = dated d (x :: l).
Proof.
  unfold dated. induction l as [|y l IH]; [reflexivity |].
  cbn [sort_insert]. unfold newest_first at 1.
  destruct (0 <? em_date y - em_date x) eqn:Hcmp; [| reflexivity].
  apply Z.ltb_lt in Hcmp. cbn [filter] in *. rewrite IH.
  destruct (em_date x =? d) eqn:Hx; destruct (em_date y =? d) eqn:Hy;
    try reflexivity.
  apply Z.eqb_eq in Hx. apply Z.eqb_eq in Hy. lia.
Qed.

(** X13: The sort of the inbox resource is stable: messages that carry the
    same date stay in the order in which they were fetched. *)
Theorem inbox_sort_stable (d : Z) (messages : list EmailMessage) :
  dated d (sort (fun a b => em_date b - em_date a) messages) = dated d messages.
Proof.
  fold newest_first. induction messages as [|x l IH]; [reflexivity |].
  cbn [sort fold_right]. fold (sort newest_first l).
  rewrite dated_sort_insert. unfold dated in *. cbn [filter]. now rewrite IH.
Qed.

(** X14: Whatever the dates, equal ones included, the messages the inbox
    resource keeps are min(10, n) of the fetched ones, newest first, and no
    message left out is newer than a message kept. *)
Theorem recentMessages_any_dates (messages : list EmailMessage) :
  List.length (recentMessages messages) = Nat.min 10 (List.length messages) /\
  StronglySorted not_older (recentMessages messages) /\
  exists older,
    Permutation (recentMessages messages ++ older) messages /\
    forall m m', In m (recentMessages messages) -> In m' older ->
                 em_date m' <= em_date m.
Proof.
  unfold recentMessages. fold newest_first. rewrite slice0_firstn by lia.
  change (Z.to_nat 10) with 10%nat.
  set (sorted := sort newest_first messages).
  assert (Hperm : Permutation sorted messages) by apply sort_perm.
  assert (Hsorted : StronglySorted not_older sorted) by apply sort_sorted.
  rewrite <- (firstn_skipn 10 sorted) in Hsorted.
  destruct (strongly_sorted_split _ _ Hsorted) as [Hfirst Hcross].
  split; [| split].
  - rewrite length_firstn. now rewrite (Permutation_length Hperm).
  - exact Hfirst.
  - exists (skipn 10 sorted). split.
    + now rewrite firstn_skipn.
    + intros m m' Hm Hm'. apply (Hcross m m' Hm Hm').
Qed.

(** * Further properties of the configuration *)

Lemma number_of_large (v : Z) :
  2 ^ 53 <= v ->
  number_of_Z v = NumInfinity \/ exists w, number_of_Z v = NumInt w /\ 2 ^ 52 <= w.
Proof.
  intros Hv. unfold number_of_Z.
  destruct (v <? 2 ^ 53) eqn:Hlt; [apply Z.ltb_lt in Hlt; lia |].
  set (e := Z.log2 v - 52).
  assert (Hlog : 53 <= Z.log2 v).
  { apply Z.log2_le_pow2; lia. }
  assert (He : 1 <= e) by (unfold e; lia).
  assert (Hpow : 0 < 2 ^ e) by (apply Z.pow_pos_nonneg; lia).
  assert (Hq : 2 ^ 52 <= v / 2 ^ e).
  { apply Z.div_le_lower_bound; [exact Hpow |].
    rewrite Z.mul_comm, <- Z.pow_add_r by lia.
    replace (52 + e) with (Z.log2 v) by (unfold e; lia).
    apply Z.log2_spec. lia. }
  set (q := v / 2 ^ e) in *.
  set (q' := if v mod 2 ^ e <? 2 ^ (e - 1) then q
             else if 2 ^ (e - 1) <? v mod 2 ^ e then q + 1
             else if Z.even q then q else q + 1).
  assert (Hq' : 2 ^ 52 <= q').
  { unfold q'. destruct (v mod 2 ^ e <? 2 ^ (e - 1)); [exact Hq |].
    destruct (2 ^ (e - 1) <? v mod 2 ^ e); [lia |].
    destruct (Z.even q); lia. }
  destruct (2 ^ 1024 <=? q' * 2 ^ e); [now left |].
  right. exists (q' * 2 ^ e). split; [reflexivity |]. nia.
Qed.

Lemma strict_eq_Number (s : string) (n : Z) :
  n < 2 ^ 52 ->
  strict_eq_number (JNum (Number s)) n = (decimal_value s =? n).
Proof.
  intros Hn. unfold Number, strict_eq_number.
  destruct (Z_lt_le_dec (decimal_value s) (2 ^ 53)) as [Hsmall | Hlarge].
  - now rewrite number_of_small.
  - destruct (number_of_large _ Hlarge) as [-> | [w [-> Hw]]].
    + symmetry. apply Z.eqb_neq. lia.
    + transitivity false; [apply Z.eqb_neq; lia | symmetry; apply Z.eqb_neq; lia].
Qed.

(** X15: The transport configuration of a process that serves: the mailbox
    connection is always secure; the delivery connection is secure exactly
    when the digits of [SMTP_PORT] denote 465 (leading zeros included); both
    use the same account and secret. *)
Theorem emailConfig_secure (vars : list (string * string)) (env : JsValue)
  (smtp_port : string) :
  startup vars = Serving env ->
  env_var "SMTP_PORT" vars = Some smtp_port ->
  cfg_secure (imap (emailConfig env)) = true /\
  cfg_secure (smtp (emailConfig env)) = (decimal_value smtp_port =? 465) /\
  cfg_auth (imap (emailConfig env)) = cfg_auth (smtp (emailConfig env)) /\
  cfg_port (smtp (emailConfig env)) = JNum (Number smtp_port).
Proof.
  intros Hserve Hport. pose proof (startup_cases vars) as Hcases.
  rewrite Hport in Hcases.
  destruct (env_var "EMAIL_USER" vars) as [user|];
    [| rewrite Hserve in Hcases; discriminate].
  destruct (env_var "EMAIL_PASSWORD" vars) as [password|];
    [| rewrite Hserve in Hcases; discriminate].
  destruct (env_var "IMAP_HOST" vars) as [imap_host|];
    [| rewrite Hserve in Hcases; discriminate].
  destruct (env_var "IMAP_PORT" vars) as [imap_port|];
    [| rewrite Hserve in Hcases; discriminate].
  destruct (env_var "SMTP_HOST" vars) as [smtp_host|];
    [| rewrite Hserve in Hcases; discriminate].
  rewrite Hserve in Hcases.
  destruct (is_email user); cbn [andb] in Hcases; [| discriminate].
  destruct (nonempty password); cbn [andb] in Hcases; [| discriminate].
  destruct (nonempty imap_host); cbn [andb] in Hcases; [| discriminate].
  destruct (matches_digits imap_port); cbn [andb] in Hcases; [| discriminate].
  destruct (nonempty smtp_host); cbn [andb] in Hcases; [| discriminate].
  destruct (matches_digits smtp_port) eqn:Hdigits; [| discriminate].
  injection Hcases as ->.
  repeat split.
  unfold emailConfig, resolved. cbn [smtp cfg_secure].
  change (get "SMTP_PORT" _) with (JNum (Number smtp_port)).
  apply strict_eq_Number. reflexivity.
Qed.

Lemma emailConfig_secure_witness :
  exists env,
    startup sample_env = Serving env /\
    cfg_secure (smtp (emailConfig env)) = true /\
    cfg_secure (imap (emailConfig env)) = true.
Proof.
  eexists. split; [reflexivity |].
  destruct (emailConfig_secure sample_env _ "465" eq_refl eq_refl)
    as [Himap [Hsmtp _]].
  split; [rewrite Hsmtp; reflexivity | exact Himap].
Defined.

(** * Further properties of the address mapper *)

(** X16: Mapping is idempotent: a mapped address read back as an address record
    maps to itself; a present, non-empty address is never changed. *)
Theorem mapAddress_idempotent (addr : MessageAddressObject) :
  let mapped := mapAddress addr in
  mapAddress (mkAddr (ea_name mapped) (Some (ea_address mapped))) = mapped /\
  (forall c s, addr_address addr = Some (String c s) ->
               ea_address mapped = String c s).
Proof.
  cbv zeta. split.
  - unfold mapAddress. cbn. f_equal. rewrite !or_else_empty.
    destruct (addr_address addr) as [[|c s]|]; reflexivity.
  - intros c s Haddr. unfold mapAddress. cbn. now rewrite Haddr.
Qed.
